(** * Grim Fairy Tale DH analysis: event-dump parser and analyses

    A shallow embedding of [src/parsers.py] (class [EventDumpParser]),
    [src/experiment_1_alignment.py], [src/experiment_3_network.py] and
    [src/experiment_4_motif.py], followed by the properties of the
    specification stated and settled against that embedding. *)

From Stdlib Require Import ZArith NArith QArith Qround Lia Lqa List Bool Ascii String.
From Stdlib Require Import Permutation Floats Uint63.
From stdpp Require Import base option list gmap.

Local Open Scope Z_scope.

(** ** Python text

    A Python [str] is a sequence of Unicode code points.  The dump holds
    Chinese text, so characters are code points ([N]), not bytes. *)

Definition char : Type := N.
Definition str : Type := list N.

(** [lit] turns an ASCII literal of the source into a [str]. *)
Definition lit (s : string) : str :=
  List.map N_of_ascii (list_ascii_of_string s).
Arguments lit s%_string.

(** [str.isspace] for one code point, as CPython's [Py_UNICODE_ISSPACE]:
    the characters that [str.strip()], [str.split()] and the regex class
    [\s] treat as whitespace. *)
Definition isspace (c : char) : bool :=
  ((9 <=? c) && (c <=? 13) || (28 <=? c) && (c <=? 32)
   || (c =? 133) || (c =? 160) || (c =? 5760)
   || (8192 <=? c) && (c <=? 8202)
   || (c =? 8232) || (c =? 8233) || (c =? 8239) || (c =? 8287)
   || (c =? 12288))%N.

Fixpoint lstrip (s : str) : str :=
  match s with
  | c :: s' => if isspace c then lstrip s' else s
  | [] => []
  end.

Definition rstrip (s : str) : str := rev (lstrip (rev s)).

(** [s.strip()] *)
Definition strip (s : str) : str := rstrip (lstrip s).

(** [s.rstrip(chars)] for an explicit character set *)
Fixpoint lstrip_chars (chars : list char) (s : str) : str :=
  match s with
  | c :: s' => if bool_decide (c ∈ chars) then lstrip_chars chars s' else s
  | [] => []
  end.

Definition rstrip_chars (chars : list char) (s : str) : str :=
  rev (lstrip_chars chars (rev s)).

(** [s.startswith(p)] *)
Fixpoint startswith (p s : str) : bool :=
  match p, s with
  | [], _ => true
  | a :: p', b :: s' => (a =? b)%N && startswith p' s'
  | _ :: _, [] => false
  end.

(** [p in s]: substring containment *)
Fixpoint contains (p s : str) : bool :=
  startswith p s ||
  match s with
  | [] => false
  | _ :: s' => contains p s'
  end.

(** [s.split(sep)] for a one-character separator: never empty. *)
Fixpoint split_on (sep : char) (s : str) : list str :=
  match s with
  | [] => [[]]
  | c :: s' =>
      if (c =? sep)%N then [] :: split_on sep s'
      else match split_on sep s' with
           | w :: ws => (c :: w) :: ws
           | [] => [[c]]
           end
  end.

(** [s.split(sep, 1)[1]] when [sep] occurs in [s]: the text after the
    first separator; [None] is Python's IndexError. *)
Fixpoint after_first (sep : char) (s : str) : option str :=
  match s with
  | [] => None
  | c :: s' => if (c =? sep)%N then Some s' else after_first sep s'
  end.

(** The text before the first [sep] (all of [s] when there is none). *)
Fixpoint before_first (sep : char) (s : str) : str :=
  match s with
  | [] => []
  | c :: s' => if (c =? sep)%N then [] else c :: before_first sep s'
  end.

(** [s.split()]: maximal runs of non-whitespace characters. *)
Fixpoint split_ws_aux (cur : str) (s : str) : list str :=
  match s with
  | [] => match cur with [] => [] | _ => [rev cur] end
  | c :: s' =>
      if isspace c
      then match cur with
           | [] => split_ws_aux [] s'
           | _ => rev cur :: split_ws_aux [] s'
           end
      else split_ws_aux (c :: cur) s'
  end.

Definition split_ws (s : str) : list str := split_ws_aux [] s.

(** Lexicographic comparison of code-point sequences: Python's [<] on [str]. *)
Fixpoint str_compare (a b : str) : comparison :=
  match a, b with
  | [], [] => Eq
  | [], _ :: _ => Lt
  | _ :: _, [] => Gt
  | x :: a', y :: b' =>
      match (x ?= y)%N with
      | Eq => str_compare a' b'
      | o => o
      end
  end.

Definition str_leb (a b : str) : bool :=
  match str_compare a b with Gt => false | _ => true end.

(** ** Reading a text file line by line

    [open(path, 'r')] uses universal newlines: ["\r\n"] and a lone ["\r"]
    are read as ["\n"].  Iterating the file yields each line with its
    terminating ["\n"]; a last line without terminator is yielded as is. *)

Definition LF : char := 10%N.
Definition CR : char := 13%N.

Fixpoint universal_newlines (s : str) : str :=
  match s with
  | [] => []
  | c :: s' =>
      if (c =? CR)%N then
        match s' with
        | d :: s'' => if (d =? LF)%N then LF :: universal_newlines s''
                      else LF :: universal_newlines s'
        | [] => [LF]
        end
      else c :: universal_newlines s'
  end.

Fixpoint lines_aux (cur : str) (s : str) : list str :=
  match s with
  | [] => match cur with [] => [] | _ => [rev cur] end
  | c :: s' =>
      if (c =? LF)%N then rev (c :: cur) :: lines_aux [] s'
      else lines_aux (c :: cur) s'
  end.

Definition file_lines (text : str) : list str :=
  lines_aux [] (universal_newlines text).

(** A text made of the given lines, each ended by a newline (used to
    write dumps down in examples). *)
Definition unlines (ls : list str) : str :=
  concat (List.map (fun l => l ++ [LF]) ls).

(** ** Exceptions *)

Inductive exn : Type := ValueError | KeyError | IndexError.

Inductive result (A : Type) : Type :=
| Ok (a : A)
| Raise (e : exn).
Arguments Ok {A} a.
Arguments Raise {A} e.

#[global] Instance result_ret : MRet result := fun A a => Ok a.

#[global] Instance result_bind : MBind result := fun A B k r =>
  match r with
  | Ok a => k a
  | Raise e => Raise e
  end.

(** The ASCII fragment of Python's [int(s)]: optional surrounding
    whitespace, an optional sign, decimal digits with single underscores
    between digits.  Python also accepts the decimal digits of other
    scripts; the parser below therefore takes [int] as a parameter and this
    function is one instance of it. *)

Definition digit_val (c : char) : option Z :=
  if ((48 <=? c) && (c <=? 57))%N then Some (Z.of_N (c - 48)) else None.

Fixpoint int_digits (acc : Z) (after_digit : bool) (s : str) : option Z :=
  match s with
  | [] => if after_digit then Some acc else None
  | c :: s' =>
      match digit_val c with
      | Some d => int_digits (10 * acc + d) true s'
      | None =>
          if (c =? 95)%N && after_digit then int_digits acc false s'
          else None
      end
  end.

Definition int_ascii (s : str) : option Z :=
  match strip s with
  | c :: s' =>
      if (c =? 45)%N then Z.opp <$> int_digits 0 false s'
      else if (c =? 43)%N then int_digits 0 false s'
      else int_digits 0 false (c :: s')
  | [] => None
  end.

(** ** The event-dump data model ([EventDumpParser]) *)

(** The keys of [COMMAND_TYPES]: the normalized categories. *)
Inductive Category : Type :=
| Text | Battle | Logic | Navigation | Party | Audio | Visual
| Message | Common | Wait | Other.

#[global] Instance Category_eq_dec : EqDecision Category.
Proof. solve_decision. Defined.

(** [COMMAND_TYPES], in declaration order (a Python dict iterates in
    insertion order). *)
Definition COMMAND_TYPES : list (Category * list str) :=
  [ (Text, [lit "Text"]);
    (Battle, [lit "Battle Processing"]);
    (Logic, [lit "Conditional Branch"; lit "Control Switches";
             lit "Control Variables"; lit "Loop"; lit "Break Loop";
             lit "Exit Event Processing"; lit "Script"]);
    (Navigation, [lit "Transfer Player"; lit "Set Move Route";
                  lit "Wait for Move"]);
    (Party, [lit "Change Party Member"; lit "Change Items";
             lit "Change Gold"]);
    (Audio, [lit "Play BGM"; lit "Play SE"; lit "Stop BGM";
             lit "Change BGS"]);
    (Visual, [lit "Change Transparent"; lit "Show Animation";
              lit "Show Picture"; lit "Erase Picture"; lit "Screen Tone";
              lit "Flash Screen"; lit "Shake Screen"]);
    (Message, [lit "Show Choices"; lit "Input Number";
               lit "Message Window"]);
    (Common, [lit "Call Common Event"]);
    (Wait, [lit "Wait"]);
    (Other, []) ].

(** [any(p in cmd_type for p in patterns)] *)
Definition any_pattern_in (patterns : list str) (cmd_type : str) : bool :=
  existsb (fun p => contains p cmd_type) patterns.

(** The loop of [_normalize_type] over a table. *)
Fixpoint normalize_in (table : list (Category * list str)) (cmd_type : str)
  : Category :=
  match table with
  | [] => Other
  | (category, patterns) :: table' =>
      if any_pattern_in patterns cmd_type then category
      else normalize_in table' cmd_type
  end.

Definition _normalize_type (cmd_type : str) : Category :=
  normalize_in COMMAND_TYPES cmd_type.

Definition COLON : char := 58%N.

(** [_extract_command_type]: [re.match(r'@>([^:]+)(?::|$)', line.strip())],
    then [group(1).strip()], or ['Unknown'] without a match.  The greedy
    class [[^:]+] takes every character up to the first colon or the end
    of the line, and needs at least one. *)
Definition _extract_command_type (line : str) : str :=
  match strip line with
  | a :: b :: rest =>
      if (a =? 64)%N && (b =? 62)%N then
        match before_first COLON rest with
        | [] => lit "Unknown"
        | g => strip g
        end
      else lit "Unknown"
  | _ => lit "Unknown"
  end.

(** [_extract_content]: the regex [@>], [[^:]+], a colon, optional
    whitespace and a final group taking any characters, matched against
    [line.strip()]; then [group(1).strip()], or [''] without a match.
    The final group stops at a newline, which the dot does not match. *)
Definition _extract_content (line : str) : str :=
  match strip line with
  | a :: b :: rest =>
      if (a =? 64)%N && (b =? 62)%N then
        match before_first COLON rest, after_first COLON rest with
        | _ :: _, Some tail => strip (before_first LF (lstrip tail))
        | _, _ => []
        end
      else []
  | _ => []
  end.

Record Command : Type := mkCommand {
  c_type : str;
  c_normalized_type : Category;
  c_line : nat;
  c_content : str;
  c_raw : str
}.

Record Event : Type := mkEvent {
  e_id : Z;
  e_name : str;
  e_commands : list Command
}.

Record Map : Type := mkMap {
  m_id : Z;
  m_name : str;
  m_events : list Event
}.

(** ** [EventDumpParser.parse_file]

    The loop keeps [self.maps] and two references into it.  [current_map]
    and [current_event] are Python references to dictionaries stored in
    [self.maps]; lists only grow at their end, so a reference is modelled
    by the position of its object: a map index, and a (map index, event
    index) pair. *)

Record state : Type := mkState {
  maps : list Map;
  current_map : option nat;
  current_event : option (nat * nat)
}.

Definition init_state : state :=
  {| maps := []; current_map := None; current_event := None |}.

Definition set_map_name (new_name : str) (m : Map) : Map :=
  {| m_id := m_id m; m_name := new_name; m_events := m_events m |}.

Definition add_event (e : Event) (m : Map) : Map :=
  {| m_id := m_id m; m_name := m_name m; m_events := m_events m ++ [e] |}.

Definition set_event_name (new_name : str) (e : Event) : Event :=
  {| e_id := e_id e; e_name := new_name; e_commands := e_commands e |}.

Definition add_command (c : Command) (e : Event) : Event :=
  {| e_id := e_id e; e_name := e_name e; e_commands := e_commands e ++ [c] |}.

Definition add_content (extra : str) (c : Command) : Command :=
  {| c_type := c_type c; c_normalized_type := c_normalized_type c;
     c_line := c_line c; c_content := c_content c ++ LF :: extra;
     c_raw := c_raw c |}.

(** The body of the continuation branch:
    [if commands and commands[-1]['type'] == 'Text':
       commands[-1]['content'] += '\n' + extra]. *)
Definition append_continuation (extra : str) (e : Event) : Event :=
  match rev (e_commands e) with
  | c :: before =>
      if bool_decide (c_type c = lit "Text")
      then {| e_id := e_id e; e_name := e_name e;
              e_commands := rev before ++ [add_content extra c] |}
      else e
  | [] => e
  end.

(** Mutation through a reference. *)
Definition alter_map (f : Map -> Map) (mi : nat) (ms : list Map) : list Map :=
  alter f mi ms.

Definition alter_map_events (f : list Event -> list Event) (m : Map) : Map :=
  {| m_id := m_id m; m_name := m_name m; m_events := f (m_events m) |}.

Definition alter_event (f : Event -> Event) (ce : nat * nat) (ms : list Map)
  : list Map :=
  alter (alter_map_events (alter f (snd ce))) (fst ce) ms.

(** [len(current_map['events'])] *)
Definition events_of_map (mi : nat) (ms : list Map) : list Event :=
  from_option m_events [] (ms !! mi).

(** The event a reference points to. *)
Definition event_at (ce : nat * nat) (ms : list Map) : option Event :=
  m ← ms !! fst ce; m_events m !! snd ce.

Definition MAP_ID : str := lit "Map ID:".
Definition MAP_NAME : str := lit "Map Name:".
Definition EVENT_ID : str := lit "Event ID:".
Definition EVENT_NAME : str := lit "Event Name:".
Definition COMMAND_MARK : str := lit "@>".
Definition CONTINUATION_MARK : str := lit ":    :".

(** [line.rstrip('\n\r')] *)
Definition chomp (raw_line : str) : str := rstrip_chars [LF; CR] raw_line.

(** The tests of the command branch and of the continuation branch. *)
Definition is_command_line (raw_line : str) : bool :=
  startswith COMMAND_MARK (strip (chomp raw_line)).

Definition is_continuation_line (raw_line : str) : bool :=
  startswith CONTINUATION_MARK (strip (chomp raw_line)).

Section Parser.

(** Python's builtin [int] on text; [None] is its ValueError. *)
Variable int : str -> option Z.

(** [int(line.split(':')[1].strip())] *)
Definition header_id (line : str) : result Z :=
  match split_on COLON line !! 1%nat with
  | None => Raise IndexError
  | Some field =>
      match int (strip field) with
      | Some n => Ok n
      | None => Raise ValueError
      end
  end.

(** [line.split(':', 1)[1].strip()] *)
Definition header_name (line : str) : result str :=
  match after_first COLON line with
  | None => Raise IndexError
  | Some field => Ok (strip field)
  end.

(** One iteration of the loop of [parse_file], after [enumerate] has
    numbered the line. *)
Definition step (st : state) (line_num : nat) (raw_line : str) : result state :=
  let line := chomp raw_line in
  if startswith MAP_ID line then
    map_id ← header_id line;
    mret {| maps := maps st ++ [ {| m_id := map_id; m_name := []; m_events := [] |} ];
            current_map := Some (length (maps st));
            current_event := current_event st |}
  else match startswith MAP_NAME line, current_map st with
  | true, Some mi =>
    new_name ← header_name line;
    mret {| maps := alter_map (set_map_name new_name) mi (maps st);
            current_map := current_map st;
            current_event := current_event st |}
  | _, _ =>
  match startswith EVENT_ID line, current_map st with
  | true, Some mi =>
    event_id ← header_id line;
    mret {| maps := alter_map
                      (add_event {| e_id := event_id; e_name := [];
                                    e_commands := [] |}) mi (maps st);
            current_map := current_map st;
            current_event := Some (mi, length (events_of_map mi (maps st))) |}
  | _, _ =>
  match startswith EVENT_NAME line, current_event st with
  | true, Some ce =>
    new_name ← header_name line;
    mret {| maps := alter_event (set_event_name new_name) ce (maps st);
            current_map := current_map st;
            current_event := current_event st |}
  | _, _ =>
  match is_command_line raw_line, current_event st with
  | true, Some ce =>
    let cmd_type := _extract_command_type line in
    let content := _extract_content line in
    mret {| maps := alter_event
                      (add_command
                         {| c_type := cmd_type;
                            c_normalized_type := _normalize_type cmd_type;
                            c_line := line_num;
                            c_content := content;
                            c_raw := strip line |}) ce (maps st);
            current_map := current_map st;
            current_event := current_event st |}
  | _, _ =>
  match is_continuation_line raw_line, current_event st with
  | true, Some ce =>
    mret {| maps := alter_event
                      (append_continuation (strip (drop 6 (strip line))))
                      ce (maps st);
            current_map := current_map st;
            current_event := current_event st |}
  | _, _ => mret st
  end end end end end.

Fixpoint parse_lines (st : state) (line_num : nat) (lines : list str)
  : result state :=
  match lines with
  | [] => Ok st
  | l :: ls => st' ← step st line_num l; parse_lines st' (S line_num) ls
  end.

(** [parse_file], on the decoded text of the file. *)
Definition parse_file (text : str) : result (list Map) :=
  st ← parse_lines init_state 1 (file_lines text); mret (maps st).

End Parser.

(** Every command of the tree carries the category computed from its raw
    label. *)
Definition command_ok (c : Command) : Prop :=
  c_normalized_type c = _normalize_type (c_type c).

Definition event_ok (e : Event) : Prop := Forall command_ok (e_commands e).

Definition map_ok (m : Map) : Prop := Forall event_ok (m_events m).

(** The continuation rule in the words of the specification, for one
    state and line: the text is appended exactly when the preceding command
    is of normalized category Text, and dropped without any other change
    otherwise. *)
Definition continuation_rule_as_specified (int : str -> option Z)
    (st : state) (n : nat) (raw : str) : Prop :=
  forall ce e before c,
    is_continuation_line raw = true ->
    current_event st = Some ce ->
    event_at ce (maps st) = Some e ->
    e_commands e = before ++ [c] ->
    (c_normalized_type c = Text ->
       step int st n raw =
         Ok {| maps := alter_event
                         (fun _ =>
                            {| e_id := e_id e; e_name := e_name e;
                               e_commands :=
                                 before ++
                                 [add_content
                                    (strip (drop 6 (strip (chomp raw)))) c] |})
                         ce (maps st);
               current_map := current_map st;
               current_event := current_event st |}) /\
    (c_normalized_type c <> Text -> step int st n raw = Ok st).

(** ** [EventDumpParser.count_commands_by_map]

    Python floats are modelled by exact rationals: [dialogue / total] is the
    quotient itself, and the literals [0.7] and [0.3] are [7/10] and [3/10].
    True division of two integers is correctly rounded, and rounding to
    nearest is monotone, so for per-map command counts (far below [2^52])
    the double-precision comparisons against [0.7] and [0.3] decide as the
    exact ones do; [density_double] and [_classify_density_double] below
    are the same computation on binary64 numbers, used to check this at the
    boundaries. *)

Definition category_code (c : Category) : positive :=
  match c with
  | Text => 1 | Battle => 2 | Logic => 3 | Navigation => 4 | Party => 5
  | Audio => 6 | Visual => 7 | Message => 8 | Common => 9 | Wait => 10
  | Other => 11
  end%positive.

Definition category_of_code (p : positive) : Category :=
  match p with
  | 1 => Text | 2 => Battle | 3 => Logic | 4 => Navigation | 5 => Party
  | 6 => Audio | 7 => Visual | 8 => Message | 9 => Common | 10 => Wait
  | _ => Other
  end%positive.

#[global] Instance Category_countable : Countable Category.
Proof.
  apply (inj_countable' category_code category_of_code).
  intros []; reflexivity.
Defined.

Inductive Classification : Type :=
| Story_Heavy        (* 'Story-Heavy' *)
| Mixed              (* 'Mixed' *)
| Combat_Traversal.  (* 'Combat/Traversal' *)

#[global] Instance Classification_eq_dec : EqDecision Classification.
Proof. solve_decision. Defined.

Definition _classify_density (density : Q) : Classification :=
  match (density ?= 7 # 10)%Q with
  | Gt => Story_Heavy
  | _ =>
      match (density ?= 3 # 10)%Q with
      | Gt => Mixed
      | _ => Combat_Traversal
      end
  end.

(** [counts[cmd['normalized_type']] += 1] on a [defaultdict(int)] *)
Definition incr (counts : gmap Category nat) (c : Category)
  : gmap Category nat :=
  <[ c := S (default 0%nat (counts !! c)) ]> counts.

(** The two nested loops over the events and commands of one map. *)
Definition count_event (counts : gmap Category nat) (e : Event)
  : gmap Category nat :=
  foldl (fun acc cmd => incr acc (c_normalized_type cmd)) counts (e_commands e).

Definition count_map (m : Map) : gmap Category nat :=
  foldl count_event ∅ (m_events m).

(** [counts.get(k, 0)] *)
Definition get0 (counts : gmap Category nat) (k : Category) : nat :=
  default 0%nat (counts !! k).

(** [round(x, 4)]: to the nearest multiple of [1/10000], a tie going to the
    even one.  (On a double a tie is decided by the binary value actually
    stored; the quotients used below are not ties.) *)
Definition round_half_even (q : Q) : Z :=
  let fl := Qfloor q in
  match (q - inject_Z fl ?= 1 # 2)%Q with
  | Lt => fl
  | Gt => fl + 1
  | Eq => if Z.even fl then fl else fl + 1
  end.

Definition round4 (q : Q) : Q := (inject_Z (round_half_even (q * 10000)) / 10000)%Q.

Record DensityRow : Type := mkDensityRow {
  map_id : Z;
  map_name : str;
  dialogue_count : nat;
  battle_count : nat;
  logic_count : nat;
  navigation_count : nat;
  visual_audio_count : nat;
  other_count : nat;
  total_commands : nat;
  narrative_density : Q;
  classification : Classification
}.

(** [dialogue / total if total > 0 else 0] *)
Definition density_of (dialogue total : nat) : Q :=
  if (0 <? total)%nat
  then (inject_Z (Z.of_nat dialogue) / inject_Z (Z.of_nat total))%Q
  else 0%Q.

(** The body of the loop over [self.maps]. *)
Definition density_row (m : Map) : DensityRow :=
  let counts := count_map m in
  let dialogue := get0 counts Text in
  let battle := (get0 counts Battle + get0 counts Common)%nat in
  let logic := get0 counts Logic in
  let navigation := get0 counts Navigation in
  let visual := (get0 counts Visual + get0 counts Audio)%nat in
  let other := (get0 counts Other + get0 counts Message
                + get0 counts Wait + get0 counts Party)%nat in
  let total := (dialogue + battle + logic + navigation + visual + other)%nat in
  let density := density_of dialogue total in
  {| map_id := m_id m;
     map_name := m_name m;
     dialogue_count := dialogue;
     battle_count := battle;
     logic_count := logic;
     navigation_count := navigation;
     visual_audio_count := visual;
     other_count := other;
     total_commands := total;
     narrative_density := round4 density;
     classification := _classify_density density |}.

Definition count_commands_by_map (ms : list Map) : list DensityRow :=
  List.map density_row ms.

(** The density and its classification on binary64 numbers. *)
Definition double_of_nat (n : nat) : float :=
  PrimFloat.of_uint63 (Uint63.of_Z (Z.of_nat n)).

Definition density_double (dialogue total : nat) : float :=
  if (0 <? total)%nat
  then PrimFloat.div (double_of_nat dialogue) (double_of_nat total)
  else 0%float.

Definition _classify_density_double (density : float) : Classification :=
  if PrimFloat.ltb 0x1.6666666666666p-1%float density then Story_Heavy
  else if PrimFloat.ltb 0x1.3333333333333p-2%float density then Mixed
  else Combat_Traversal.

(** The commands of a map, over all its events, and how many of them carry
    a given category. *)
Definition all_commands (m : Map) : list Command :=
  e ← m_events m; e_commands e.

Definition count_category (c : Category) (cmds : list Command) : nat :=
  length (List.filter (fun x => bool_decide (c_normalized_type x = c)) cmds).

(** [EventDumpParser.extract_all_dialogue] *)

Record Dialogue : Type := mkDialogue {
  d_map_id : Z;
  d_map_name : str;
  d_event_id : Z;
  d_event_name : str;
  d_line : nat;
  d_text : str;
  d_raw : str
}.

Definition dialogue_of (m : Map) (e : Event) (cmd : Command) : Dialogue :=
  {| d_map_id := m_id m; d_map_name := m_name m;
     d_event_id := e_id e; d_event_name := e_name e;
     d_line := c_line cmd; d_text := c_content cmd; d_raw := c_raw cmd |}.

Definition extract_all_dialogue (ms : list Map) : list Dialogue :=
  m ← ms; e ← m_events m;
  cmd ← List.filter (fun c => bool_decide (c_normalized_type c = Text))
                    (e_commands e);
  [dialogue_of m e cmd].

(** ** Python dictionaries, in insertion order *)

Section Dict.
Context {K V : Type} `{EqDecision K}.

Fixpoint dict_get (k : K) (d : list (K * V)) : option V :=
  match d with
  | [] => None
  | (k', v) :: d' => if decide (k' = k) then Some v else dict_get k d'
  end.

(** [d[k] = f(d.get(k))]: an existing key keeps its place, a new key goes
    to the end. *)
Fixpoint dict_upd (k : K) (f : option V -> V) (d : list (K * V))
  : list (K * V) :=
  match d with
  | [] => [(k, f None)]
  | (k', v) :: d' =>
      if decide (k' = k) then (k', f (Some v)) :: d'
      else (k', v) :: dict_upd k f d'
  end.

Definition dict_set (k : K) (v : V) (d : list (K * V)) : list (K * V) :=
  dict_upd k (fun _ => v) d.

End Dict.

(** [d[k].append(x)] on a [defaultdict(list)] *)
Definition dict_append {K A : Type} `{EqDecision K} (k : K) (x : A)
    (d : list (K * list A)) : list (K * list A) :=
  dict_upd k (fun o => default [] o ++ [x]) d.

(** ** Experiment 1: [StructuralAlignment] *)

Record FilmBeat : Type := mkFilmBeat {
  fb_type : str;
  fb_timestamp : str;
  fb_description : str
}.

Record GameBeat : Type := mkGameBeat {
  gb_type : str;
  gb_description : str;
  gb_map_id : Z;
  gb_event_id : Z;
  gb_line : Z
}.

Inductive MatchType : Type :=
| Direct_Transposition   (* 'Direct Transposition' *)
| Structural_Homology    (* 'Structural Homology' *)
| Unmatched.             (* 'Unmatched' *)

#[global] Instance MatchType_eq_dec : EqDecision MatchType.
Proof. solve_decision. Defined.

(** One row of the alignment table.  ['Game Location'] is kept as the
    three numbers that the source formats into ["Map 005, Event 002, Line
    10"], with [None] for the dash of an unmatched row. *)
Record AlignmentRow : Type := mkAlignmentRow {
  Beat_Type : str;
  Film_Timestamp : str;
  Film_Beat : str;
  Game_Location : option (Z * Z * Z);
  Game_Beat : str;
  Match_Type : MatchType;
  Matched : bool
}.

Definition overlap_words : gset str :=
  list_to_set
    [lit "kill"; lit "tank"; lit "wolf"; lit "werewolf"; lit "visit";
     lit "mother"; lit "grandmother"; lit "leave"; lit "return"; lit "soap";
     lit "letter"; lit "deliver"; lit "promise"; lit "train"; lit "journey";
     lit "delay"].

(** [s.replace('_', ' ')] *)
Definition underscores_to_spaces (s : str) : str :=
  List.map (fun c => if (c =? 95)%N then 32%N else c) s.

(** [pd.DataFrame(rows)] takes its columns from the rows it is given:
    built from an empty list it has no column at all, and selecting a
    column of it raises KeyError. *)
Definition column {R A : Type} (field : R -> A) (df : list R)
  : result (list A) :=
  match df with
  | [] => Raise KeyError
  | _ => Ok (List.map field df)
  end.

(** [Series.apply(f)], stopping at the first exception *)
Fixpoint apply_all {A B : Type} (f : A -> result B) (l : list A)
  : result (list B) :=
  match l with
  | [] => Ok []
  | x :: l' => y ← f x; ys ← apply_all f l'; mret (y :: ys)
  end.

(** [df.sort_values(key)]: rows in ascending key order.  Rows with equal
    keys are kept in their order here; the properties below use only that
    the result is a sorted rearrangement of the rows. *)
Fixpoint insert_by_key {R : Type} (x : Q * R) (l : list (Q * R))
  : list (Q * R) :=
  match l with
  | [] => [x]
  | y :: l' =>
      if Qle_bool (fst y) (fst x) then y :: insert_by_key x l'
      else x :: y :: l'
  end.

Definition sort_values {R : Type} (keys : list Q) (df : list R) : list R :=
  List.map snd (foldl (fun acc kr => insert_by_key kr acc) [] (zip keys df)).

(** The matching in the words of the specification: the subject beats
    not consumed yet are kept in one list, and a reference beat takes the
    first of them that has its type. *)
Fixpoint take_first_of_type (ty : str) (unconsumed : list GameBeat)
  : option (GameBeat * list GameBeat) :=
  match unconsumed with
  | [] => None
  | gb :: rest =>
      if decide (gb_type gb = ty) then Some (gb, rest)
      else match take_first_of_type ty rest with
           | Some (found, rest') => Some (found, gb :: rest')
           | None => None
           end
  end.

(** The beats of one type, in their order. *)
Definition of_type {A : Type} (type_of : A -> str) (ty : str) (beats : list A)
  : list A :=
  List.filter (fun b => bool_decide (type_of b = ty)) beats.

Section Alignment.

(** Python's [int], [str.lower] and [str.title]. *)
Variable int : str -> option Z.
Variable lower : str -> str.
Variable title : str -> str.

Definition to_int (s : str) : result Z :=
  match int s with
  | Some n => Ok n
  | None => Raise ValueError
  end.

Definition _timestamp_to_minutes (timestamp : str) : result Q :=
  match split_on COLON timestamp with
  | [p0; p1; p2] =>
      h ← to_int p0; m ← to_int p1; s ← to_int p2;
      mret (inject_Z h * 60 + inject_Z m + inject_Z s / 60)%Q
  | [p0; p1] =>
      m ← to_int p0; s ← to_int p1;
      mret (inject_Z m + inject_Z s / 60)%Q
  | _ => mret 0%Q
  end.

Definition words (description : str) : gset str :=
  list_to_set (split_ws (lower description)).

Definition _classify_match (film_beat : FilmBeat) (game_beat : GameBeat)
  : MatchType :=
  let film_words := words (fb_description film_beat) in
  let game_words := words (gb_description game_beat) in
  let film_key := film_words ∩ overlap_words in
  let game_key := game_words ∩ overlap_words in
  if decide (film_key ∩ game_key = ∅) then Structural_Homology
  else Direct_Transposition.

Definition matched_row (beat_type : str) (fb : FilmBeat) (gb : GameBeat)
  : AlignmentRow :=
  {| Beat_Type := title (underscores_to_spaces beat_type);
     Film_Timestamp := fb_timestamp fb;
     Film_Beat := fb_description fb;
     Game_Location := Some (gb_map_id gb, gb_event_id gb, gb_line gb);
     Game_Beat := gb_description gb;
     Match_Type := _classify_match fb gb;
     Matched := true |}.

Definition unmatched_row (beat_type : str) (fb : FilmBeat) : AlignmentRow :=
  {| Beat_Type := title (underscores_to_spaces beat_type);
     Film_Timestamp := fb_timestamp fb;
     Film_Beat := fb_description fb;
     Game_Location := None;
     Game_Beat := lit "(No match)";
     Match_Type := Unmatched;
     Matched := false |}.

(** The inner loop over the film beats of one type; [game_instances] is
    rebound to [game_instances[1:]] after each match. *)
Fixpoint match_instances (beat_type : str) (film_instances : list FilmBeat)
    (game_instances : list GameBeat) : list AlignmentRow :=
  match film_instances with
  | [] => []
  | fb :: film_rest =>
      match game_instances with
      | gb :: game_rest =>
          matched_row beat_type fb gb
          :: match_instances beat_type film_rest game_rest
      | [] =>
          unmatched_row beat_type fb
          :: match_instances beat_type film_rest []
      end
  end.

Definition group_by_type {A : Type} (type_of : A -> str) (beats : list A)
  : list (str * list A) :=
  foldl (fun d b => dict_append (type_of b) b d) [] beats.

(** The rows appended to [alignment_data], in the order of the loops. *)
Definition alignment_data (film_beats : list FilmBeat)
    (game_beats : list GameBeat) : list AlignmentRow :=
  let film_by_type := group_by_type fb_type film_beats in
  let game_by_type := group_by_type gb_type game_beats in
  '(beat_type, film_instances) ← film_by_type;
  match_instances beat_type film_instances
    (default [] (dict_get beat_type game_by_type)).

Definition compute_alignment (film_beats : list FilmBeat)
    (game_beats : list GameBeat) : result (list AlignmentRow) :=
  let df := alignment_data film_beats game_beats in
  timestamps ← column Film_Timestamp df;
  sort_key ← apply_all _timestamp_to_minutes timestamps;
  mret (sort_values sort_key df).

(** The rows that the loops of the source produce for the types [keys]. *)
Definition rows_by_type (keys : list str) (film : list FilmBeat)
    (game : list GameBeat) : list AlignmentRow :=
  ty ← keys;
  match_instances ty (of_type fb_type ty film) (of_type gb_type ty game).

(** One row per reference beat, in the order of the reference beats, each
    taking the first unconsumed subject beat of its type. *)
Fixpoint align_in_order (film_beats : list FilmBeat)
    (unconsumed : list GameBeat) : list AlignmentRow :=
  match film_beats with
  | [] => []
  | fb :: film_rest =>
      match take_first_of_type (fb_type fb) unconsumed with
      | Some (gb, rest) =>
          matched_row (fb_type fb) fb gb :: align_in_order film_rest rest
      | None =>
          unmatched_row (fb_type fb) fb :: align_in_order film_rest unconsumed
      end
  end.

Definition matched_count (rows : list AlignmentRow) : nat :=
  length (List.filter Matched rows).

(** [calculate_alignment_score]; [alignment_table] is the attribute of the
    object, [None] before the first [compute_alignment]. *)
Definition calculate_alignment_score (film_beats : list FilmBeat)
    (game_beats : list GameBeat) (alignment_table : option (list AlignmentRow))
  : result Q :=
  table ← match alignment_table with
          | None => compute_alignment film_beats game_beats
          | Some t => Ok t
          end;
  flags ← column Matched table;
  let matched := length (List.filter id flags) in
  let total := length table in
  mret (if (0 <? total)%nat
        then (inject_Z (Z.of_nat matched) / inject_Z (Z.of_nat total) * 100)%Q
        else 0%Q).

End Alignment.

(** ** Experiment 3: [SemanticNetwork] *)

(** [itertools.combinations(l, 2)] *)
Fixpoint combinations2 {A : Type} (l : list A) : list (A * A) :=
  match l with
  | [] => []
  | x :: l' => List.map (pair x) l' ++ combinations2 l'
  end.

(** [tuple(sorted([kw1, kw2]))] *)
Definition sorted_pair (p : str * str) : str * str :=
  if str_leb (fst p) (snd p) then p else (snd p, fst p).

(** [co_occurrence[pair] += 1] on a [defaultdict(int)] *)
Definition bump (co : gmap (str * str) nat) (pair : str * str)
  : gmap (str * str) nat :=
  <[ pair := S (default 0%nat (co !! pair)) ]> co.

(** The body of the loop of [process_dialogues] for one dialogue text. *)
Definition process_text (all_keywords : list str)
    (co : gmap (str * str) nat) (text : str) : gmap (str * str) nat :=
  let present := List.filter (fun kw => contains kw text) all_keywords in
  foldl (fun acc p => bump acc (sorted_pair p)) co (combinations2 present).

Definition process_dialogues (entities themes : list str)
    (dialogues : list Dialogue) : gmap (str * str) nat :=
  let all_keywords := entities ++ themes in
  foldl (fun co d => process_text all_keywords co (d_text d)) ∅ dialogues.

Inductive NodeType : Type :=
| entity   (* 'entity' *)
| theme.   (* 'theme' *)

(** A [networkx.Graph]: the node dictionary with its attributes ([None]
    for a node that carries no [node_type]) and the symmetric adjacency
    dictionary holding the edge weights. *)
Record Graph : Type := mkGraph {
  node : gmap str (option NodeType);
  adj : gmap str (gmap str nat)
}.

Definition empty_graph : Graph := {| node := ∅; adj := ∅ |}.

Definition neighbours (g : Graph) (u : str) : gmap str nat :=
  default ∅ (adj g !! u).

(** [G.add_node(n, node_type=ty)] *)
Definition add_node (n : str) (ty : NodeType) (g : Graph) : Graph :=
  {| node := <[ n := Some ty ]> (node g);
     adj := <[ n := neighbours g n ]> (adj g) |}.

(** What [add_edge] does to an endpoint: a node that is not in the graph
    yet is added without attributes. *)
Definition touch_node (n : str) (g : Graph) : Graph :=
  {| node := <[ n := default None (node g !! n) ]> (node g);
     adj := <[ n := neighbours g n ]> (adj g) |}.

(** [G.add_edge(u, v, weight=w)] *)
Definition add_edge (u v : str) (w : nat) (g : Graph) : Graph :=
  let g1 := touch_node v (touch_node u g) in
  let g2 := {| node := node g1;
               adj := <[ u := <[ v := w ]> (neighbours g1 u) ]> (adj g1) |} in
  {| node := node g2;
     adj := <[ v := <[ u := w ]> (neighbours g2 v) ]> (adj g2) |}.

(** [nx.isolates(G)]: the nodes of degree zero *)
Definition is_isolated (g : Graph) (n : str) : bool :=
  bool_decide (neighbours g n = ∅).

(** [G.remove_nodes_from(nx.isolates(G))] *)
Definition remove_isolated (g : Graph) : Graph :=
  {| node := filter (fun kv => is_isolated g (fst kv) = false) (node g);
     adj := filter (fun kv => is_isolated g (fst kv) = false) (adj g) |}.

(** The graph before the edges are added: one node per keyword, typed,
    and no edge. *)
Definition keyword_graph (entities themes : list str) : Graph :=
  foldl (fun g t => add_node t theme g)
        (foldl (fun g e => add_node e entity g) empty_graph entities) themes.

Definition build_network (entities themes : list str)
    (co_occurrence : gmap (str * str) nat) (threshold : Z) : Graph :=
  let g1 := keyword_graph entities themes in
  let g2 := map_fold
              (fun pair weight g =>
                 if (threshold <=? Z.of_nat weight)%Z
                 then add_edge (fst pair) (snd pair) weight g
                 else g)
              g1 co_occurrence in
  remove_isolated g2.

Definition has_edge (g : Graph) (u v : str) : Prop :=
  is_Some (neighbours g u !! v).

Definition edge_weight (g : Graph) (u v : str) : option nat :=
  neighbours g u !! v.

(** The count recorded for the canonical form of an unordered pair; a
    pair that was never seen counts 0, as in a [defaultdict(int)]. *)
Definition pair_count (co : gmap (str * str) nat) (u v : str) : nat :=
  default 0%nat (co !! sorted_pair (u, v)).

(** What [process_dialogues] records: canonical pairs of keywords, each
    seen at least once. *)
Definition co_ok (keywords : list str) (co : gmap (str * str) nat) : Prop :=
  forall p n, co !! p = Some n ->
    sorted_pair p = p /\ (1 <= n)%nat /\ In (fst p) keywords
    /\ In (snd p) keywords.

(** The edges recorded for a pair, given the counts and the threshold. *)
Definition edge_of (co : gmap (str * str) nat) (threshold : Z) (x y : str)
  : option nat :=
  match co !! sorted_pair (x, y) with
  | Some w => if (threshold <=? Z.of_nat w)%Z then Some w else None
  | None => None
  end.

(** ** Experiment 4: [MotifEvolution] *)

Record Instance : Type := mkInstance {
  i_map_id : Z;
  i_map_name : str;
  i_event_id : Z;
  i_line : nat;
  i_text : str;
  i_arc : str;
  i_scores : list (str * nat);
  i_dominant_context : str;
  i_total_context_score : nat
}.

Definition _map_to_arc (map_id : Z) : str :=
  if map_id <=? 10 then lit "1.1 (Camp)"
  else if map_id <=? 30 then lit "1.2 (Journey)"
  else if map_id <=? 45 then lit "1.3 (Grandmother)"
  else if map_id <=? 100 then lit "2.x (Cinderella)"
  else lit "3.x (Snow White)".

(** [sum(1 for kw in keywords if kw in text)] *)
Definition score_of (keywords : list str) (text : str) : nat :=
  length (List.filter (fun kw => contains kw text) keywords).

(** The loop filling [scores] from the items of [context_keywords]. *)
Definition score_contexts (context_keywords : list (str * list str))
    (text : str) : list (str * nat) :=
  foldl (fun scores ck => dict_set (fst ck) (score_of (snd ck) text) scores)
        [] context_keywords.

(** [scores.get(k)] for a key of [scores] *)
Definition score_get (scores : list (str * nat)) (k : str) : nat :=
  default 0%nat (dict_get k scores).

(** [max(keys, key=f)] keeps the first of the largest elements: the
    running best is replaced only by a strictly larger one. *)
Fixpoint max_from {A : Type} (f : A -> nat) (best : A) (l : list A) : A :=
  match l with
  | [] => best
  | x :: l' => if (f best <? f x)%nat then max_from f x l' else max_from f best l'
  end.

Definition dominant_of (scores : list (str * nat)) : str :=
  let total := sum_list (List.map snd scores) in
  if (0 <? total)%nat then
    match List.map fst scores with
    | k :: ks => max_from (score_get scores) k ks
    | [] => lit "neutral"
    end
  else lit "neutral".

Definition instance_of (context_keywords : list (str * list str))
    (dialogue : Dialogue) : Instance :=
  let text := d_text dialogue in
  let scores := score_contexts context_keywords text in
  {| i_map_id := d_map_id dialogue;
     i_map_name := d_map_name dialogue;
     i_event_id := d_event_id dialogue;
     i_line := d_line dialogue;
     i_text := take 150 text;
     i_arc := _map_to_arc (d_map_id dialogue);
     i_scores := scores;
     i_dominant_context := dominant_of scores;
     i_total_context_score := sum_list (List.map snd scores) |}.

(** [extract_instances], from the dialogues that [extract_all_dialogue]
    returned. *)
Definition extract_instances (motif : str)
    (context_keywords : list (str * list str)) (dialogues : list Dialogue)
  : list Instance :=
  List.map (instance_of context_keywords)
    (List.filter (fun d => contains motif (d_text d)) dialogues).

(** ** Example data *)

Definition show_text_command : Command :=
  {| c_type := lit "Show Text"; c_normalized_type := Text; c_line := 3;
     c_content := lit "a"; c_raw := lit "@>Show Text: a" |}.

Definition show_text_state : state :=
  {| maps := [ {| m_id := 1; m_name := [];
                  m_events := [ {| e_id := 1; e_name := [];
                                   e_commands := [show_text_command] |} ] |} ];
     current_map := Some 0%nat;
     current_event := Some (0%nat, 0%nat) |}.

Definition text_command : Command :=
  {| c_type := lit "Text"; c_normalized_type := Text; c_line := 3;
     c_content := lit "a"; c_raw := lit "@>Text: a" |}.

Definition text_state (cmds : list Command) : state :=
  {| maps := [ {| m_id := 1; m_name := [];
                  m_events := [ {| e_id := 1; e_name := [];
                                   e_commands := cmds |} ] |} ];
     current_map := Some 0%nat;
     current_event := Some (0%nat, 0%nat) |}.

Definition camp_dump : str :=
  unlines [lit "Map ID: 1"; lit "Map Name: Camp"; lit "Event ID: 1";
           lit "@>Text: Good morning."; lit "@>Text: Where is the captain?";
           lit "@>Text: At the gate."; lit "@>Battle Processing: Wolf"].


(** A command as the parser records it for a line made of a raw label. *)
Definition command_of_label (label : str) : Command :=
  {| c_type := label; c_normalized_type := _normalize_type label;
     c_line := 0; c_content := []; c_raw := lit "@>" ++ label |}.

Definition map_of_commands (cmds : list Command) : Map :=
  {| m_id := 1; m_name := [];
     m_events := [ {| e_id := 1; e_name := []; e_commands := cmds |} ] |}.

(** A dump with 1405 Text commands among 2007: density 0.70004982...,
    above 0.7. *)
Definition long_dump : str :=
  unlines ([lit "Map ID: 1"; lit "Event ID: 1"]
           ++ repeat (lit "@>Text: a") 1405
           ++ repeat (lit "@>Battle Processing: b") 602).

Definition home_contexts : list (str * list str) :=
  [(lit "innocence", [lit "home"]); (lit "military", [lit "war"])].

Definition home_dialogue : Dialogue :=
  {| d_map_id := 1; d_map_name := lit "Camp"; d_event_id := 1;
     d_event_name := []; d_line := 4; d_text := lit "I miss home";
     d_raw := lit "@>Text: I miss home" |}.

(** [str.lower] and [str.title] on ASCII text. *)
Definition ascii_lower (s : str) : str :=
  List.map (fun c => if ((65 <=? c) && (c <=? 90))%N then (c + 32)%N else c) s.

Definition is_ascii_letter (c : char) : bool :=
  ((65 <=? c) && (c <=? 90) || (97 <=? c) && (c <=? 122))%N.

Fixpoint ascii_title_from (after_letter : bool) (s : str) : str :=
  match s with
  | [] => []
  | c :: s' =>
      (if is_ascii_letter c then
         if after_letter
         then (if (c <=? 90)%N then (c + 32)%N else c)
         else (if (97 <=? c)%N then (c - 32)%N else c)
       else c) :: ascii_title_from (is_ascii_letter c) s'
  end.

Definition ascii_title (s : str) : str := ascii_title_from false s.

Definition tank_film : list FilmBeat :=
  [ {| fb_type := lit "heroic_act"; fb_timestamp := lit "00:10:00";
       fb_description := lit "soldier kills tank" |} ].

Definition tank_game : list GameBeat :=
  [ {| gb_type := lit "heroic_act"; gb_description := lit "rebel destroys tank";
       gb_map_id := 5; gb_event_id := 2; gb_line := 10 |} ].

Definition text_dialogue (text : str) : Dialogue :=
  {| d_map_id := 1; d_map_name := []; d_event_id := 1; d_event_name := [];
     d_line := 1; d_text := text; d_raw := lit "@>Text: " ++ text |}.

(** * Properties *)

(** ** Text helpers *)

Lemma lstrip_app_nonspace (l : str) (c : char) :
  isspace c = false -> lstrip (l ++ [c]) = lstrip l ++ [c].
Proof.
  intros Hc. induction l as [|a l IH]; simpl.
  - rewrite Hc. reflexivity.
  - destruct (isspace a); [exact IH | reflexivity].
Qed.

Lemma rstrip_cons_nonspace (c : char) (s : str) :
  isspace c = false -> exists s', rstrip (c :: s) = c :: s'.
Proof.
  intros Hc. unfold rstrip. change (rev (c :: s)) with (rev s ++ [c]).
  assert (H : exists t, lstrip (rev s ++ [c]) = t ++ [c]).
  { generalize (rev s). intros l. induction l as [|a l [t Ht]]; simpl.
    - rewrite Hc. exists []. reflexivity.
    - destruct (isspace a).
      + exists t. exact Ht.
      + exists (a :: l). reflexivity. }
  destruct H as [t Ht]. rewrite Ht, rev_app_distr. simpl. eauto.
Qed.

(** A line whose first character is not whitespace keeps it under
    [strip()]. *)
Lemma strip_cons_nonspace (c : char) (s : str) :
  isspace c = false -> exists s', strip (c :: s) = c :: s'.
Proof.
  intros Hc. unfold strip. simpl. rewrite Hc.
  apply rstrip_cons_nonspace. exact Hc.
Qed.

Lemma startswith_cons_inv (a : char) (p s : str) :
  startswith (a :: p) s = true -> exists s', s = a :: s'.
Proof.
  destruct s as [|b s]; simpl; [discriminate |].
  intros H. apply andb_prop in H as [H _]. apply N.eqb_eq in H. subst. eauto.
Qed.

(** The headers begin with a letter, the two markers with ['@'] and [':']:
    a line whose trimmed form begins with a marker is none of the headers. *)
Lemma marker_not_header (c : char) (line : str) :
  isspace c = false -> c <> 77%N -> c <> 69%N ->
  (exists t, strip line = c :: t) ->
  startswith MAP_ID line = false /\ startswith MAP_NAME line = false /\
  startswith EVENT_ID line = false /\ startswith EVENT_NAME line = false.
Proof.
  intros Hc HM HE [t Ht].
  assert (Hhead : forall a p, isspace a = false -> a <> c ->
                              startswith (a :: p) line = false).
  { intros a p Ha Hac. destruct (startswith (a :: p) line) eqn:Hs; [| reflexivity].
    apply startswith_cons_inv in Hs as [s' ->].
    destruct (strip_cons_nonspace a s' Ha) as [u Hu].
    rewrite Hu in Ht. congruence. }
  repeat split; apply Hhead; try reflexivity;
    intros E;
    first [apply HM; rewrite <- E; reflexivity
          | apply HE; rewrite <- E; reflexivity].
Qed.

Lemma command_line_not_header (raw : str) :
  is_command_line raw = true ->
  startswith MAP_ID (chomp raw) = false /\
  startswith MAP_NAME (chomp raw) = false /\
  startswith EVENT_ID (chomp raw) = false /\
  startswith EVENT_NAME (chomp raw) = false.
Proof.
  intros H. apply startswith_cons_inv in H.
  apply (marker_not_header 64%N); [reflexivity | lia | lia | exact H].
Qed.

Lemma continuation_line_not_header (raw : str) :
  is_continuation_line raw = true ->
  startswith MAP_ID (chomp raw) = false /\
  startswith MAP_NAME (chomp raw) = false /\
  startswith EVENT_ID (chomp raw) = false /\
  startswith EVENT_NAME (chomp raw) = false /\
  startswith COMMAND_MARK (strip (chomp raw)) = false.
Proof.
  intros H. apply startswith_cons_inv in H as Hs.
  destruct (marker_not_header 58%N (chomp raw)) as (H1 & H2 & H3 & H4);
    [reflexivity | lia | lia | exact Hs |].
  repeat split; try assumption.
  destruct Hs as [t ->]. reflexivity.
Qed.

(** ** The line scan *)

Lemma state_eta (st : state) :
  {| maps := maps st; current_map := current_map st;
     current_event := current_event st |} = st.
Proof. destruct st; reflexivity. Qed.

Lemma alter_fix {A : Type} (f : A -> A) (i : nat) (l : list A) :
  (forall x, l !! i = Some x -> f x = x) -> alter f i l = l.
Proof.
  revert i. induction l as [|a l IH]; intros [|i] H; simpl in *;
    try reflexivity.
  - f_equal. apply H. reflexivity.
  - f_equal. apply IH. exact H.
Qed.

(** Mutating an event through a reference leaves the tree as it is when
    the mutation leaves that event as it is. *)
Lemma alter_event_fix (f : Event -> Event) (ce : nat * nat) (ms : list Map) :
  (forall e, event_at ce ms = Some e -> f e = e) -> alter_event f ce ms = ms.
Proof.
  intros H. unfold alter_event. apply alter_fix. intros m Hm.
  unfold alter_map_events. destruct m as [i nm evs]; simpl. f_equal.
  apply alter_fix. intros e He. apply H.
  unfold event_at. rewrite Hm. simpl. exact He.
Qed.

Lemma event_at_alter_event (f : Event -> Event) (ce : nat * nat)
    (ms : list Map) (e : Event) :
  event_at ce ms = Some e -> event_at ce (alter_event f ce ms) = Some (f e).
Proof.
  unfold event_at, alter_event. destruct ce as [mi ei]. cbn [fst snd].
  rewrite list_lookup_alter_eq.
  destruct (ms !! mi) as [m|] eqn:Hm; [| discriminate].
  cbn [fmap option_fmap option_map mbind option_bind alter_map_events m_events].
  intros He. rewrite list_lookup_alter_eq, He. reflexivity.
Qed.

Lemma event_at_alter_event_ne (f : Event -> Event) (ce ce' : nat * nat)
    (ms : list Map) :
  ce <> ce' -> event_at ce' (alter_event f ce ms) = event_at ce' ms.
Proof.
  unfold event_at, alter_event. destruct ce as [mi ei], ce' as [mi' ei'].
  cbn [fst snd]. intros Hne.
  destruct (decide (mi = mi')) as [->|Hm].
  - rewrite list_lookup_alter_eq. destruct (ms !! mi') as [m|]; [| reflexivity].
    cbn [fmap option_fmap option_map mbind option_bind alter_map_events m_events].
    apply list_lookup_alter_ne. congruence.
  - rewrite list_lookup_alter_ne by exact Hm. reflexivity.
Qed.

Lemma append_continuation_text (extra : str) (e : Event)
    (before : list Command) (c : Command) :
  e_commands e = before ++ [c] -> c_type c = lit "Text" ->
  append_continuation extra e =
    {| e_id := e_id e; e_name := e_name e;
       e_commands := before ++ [add_content extra c] |}.
Proof.
  intros Hc Ht. unfold append_continuation.
  rewrite Hc, rev_app_distr. simpl. rewrite Ht.
  rewrite bool_decide_eq_true_2 by reflexivity. rewrite rev_involutive.
  reflexivity.
Qed.

Lemma append_continuation_other (extra : str) (e : Event)
    (before : list Command) (c : Command) :
  e_commands e = before ++ [c] -> c_type c <> lit "Text" ->
  append_continuation extra e = e.
Proof.
  intros Hc Ht. unfold append_continuation.
  rewrite Hc, rev_app_distr. simpl.
  rewrite bool_decide_eq_false_2 by exact Ht. reflexivity.
Qed.

Lemma append_continuation_empty (extra : str) (e : Event) :
  e_commands e = [] -> append_continuation extra e = e.
Proof. intros Hc. unfold append_continuation. rewrite Hc. reflexivity. Qed.

(** The continuation branch is the one taken for a continuation line, once
    an event is current. *)
Lemma step_continuation (int : str -> option Z) (st : state) (n : nat)
    (raw : str) (ce : nat * nat) :
  is_continuation_line raw = true -> current_event st = Some ce ->
  step int st n raw =
    Ok {| maps := alter_event
                    (append_continuation (strip (drop 6 (strip (chomp raw)))))
                    ce (maps st);
          current_map := current_map st;
          current_event := current_event st |}.
Proof.
  intros Hl Hce.
  destruct (continuation_line_not_header raw Hl) as (H1 & H2 & H3 & H4 & H5).
  unfold step. fold (is_command_line raw) in H5.
  rewrite H1, H2, H3, H4, H5, Hl, Hce. reflexivity.
Qed.

Lemma step_command_no_event (int : str -> option Z) (st : state) (n : nat)
    (raw : str) :
  is_command_line raw = true -> current_event st = None ->
  step int st n raw = Ok st.
Proof.
  intros Hl Hce.
  destruct (command_line_not_header raw Hl) as (H1 & H2 & H3 & H4).
  unfold step. rewrite H1, H2, H3, H4, Hl, Hce.
  destruct (is_continuation_line raw); reflexivity.
Qed.

Lemma step_continuation_no_event (int : str -> option Z) (st : state)
    (n : nat) (raw : str) :
  is_continuation_line raw = true -> current_event st = None ->
  step int st n raw = Ok st.
Proof.
  intros Hl Hce.
  destruct (continuation_line_not_header raw Hl) as (H1 & H2 & H3 & H4 & H5).
  unfold step. fold (is_command_line raw) in H5.
  rewrite H1, H2, H3, H4, H5, Hl, Hce. reflexivity.
Qed.

(** C10. A command line met while no event is current, and a continuation
    line met while no event is current or while the current event has no
    command yet, are skipped: the step returns the state it was given (the
    parsed tree and both references unchanged) and raises nothing.  A dump
    made only of such lines therefore parses to the empty list of maps. *)
Theorem parse_skips_lines_without_target (int : str -> option Z) :
  (forall st n raw,
      is_command_line raw = true -> current_event st = None ->
      step int st n raw = Ok st) /\
  (forall st n raw,
      is_continuation_line raw = true -> current_event st = None ->
      step int st n raw = Ok st) /\
  (forall st n raw ce e,
      is_continuation_line raw = true -> current_event st = Some ce ->
      event_at ce (maps st) = Some e -> e_commands e = [] ->
      step int st n raw = Ok st) /\
  (forall lines n,
      Forall (fun raw => is_command_line raw = true
                         \/ is_continuation_line raw = true) lines ->
      parse_lines int init_state n lines = Ok init_state).
Proof.
  split; [| split; [| split]].
  - intros. apply step_command_no_event; assumption.
  - intros. apply step_continuation_no_event; assumption.
  - intros st n raw ce e Hl Hce He Hc.
    rewrite (step_continuation int st n raw ce Hl Hce).
    rewrite alter_event_fix.
    + rewrite state_eta. reflexivity.
    + intros e' He'. rewrite He in He'. injection He' as <-.
      apply append_continuation_empty. exact Hc.
  - intros lines. induction lines as [|raw lines IH]; intros n Hall.
    + reflexivity.
    + inversion Hall as [|? ? Hraw Hrest]; subst. simpl.
      assert (Hs : step int init_state n raw = Ok init_state).
      { destruct Hraw as [Hraw | Hraw].
        - apply step_command_no_event; [exact Hraw | reflexivity].
        - apply step_continuation_no_event; [exact Hraw | reflexivity]. }
      rewrite Hs. simpl. apply IH. exact Hrest.
Qed.

Lemma parse_skips_lines_without_target_witness :
  step int_ascii init_state 1 (lit "@>Text: hello") = Ok init_state /\
  step int_ascii init_state 1 (lit ":    : more") = Ok init_state /\
  (let st := {| maps := [ {| m_id := 1; m_name := [];
                             m_events := [ {| e_id := 1; e_name := [];
                                              e_commands := [] |} ] |} ];
                current_map := Some 0%nat;
                current_event := Some (0%nat, 0%nat) |} in
   step int_ascii st 3 (lit ":    : more") = Ok st) /\
  parse_lines int_ascii init_state 1 [lit "@>Text: hello"; lit ":    : more"]
  = Ok init_state.
Proof.
  destruct (parse_skips_lines_without_target int_ascii) as (H1 & H2 & H3 & H4).
  split; [| split; [| split]].
  - apply H1; reflexivity.
  - apply H2; reflexivity.
  - cbv zeta.
    apply (H3 _ 3%nat _ (0%nat, 0%nat)
              {| e_id := 1; e_name := []; e_commands := [] |});
      reflexivity.
  - apply H4. constructor; [left; reflexivity |].
    constructor; [right; reflexivity | constructor].
Defined.

(** C1 (evaluation at the failing input).  After the header of map 2 the
    event of map 1 is still the current one: the command line that follows
    lands in map 1, and map 2 stays without events. *)
Theorem map_header_keeps_current_event :
  parse_file int_ascii
    (unlines [lit "Map ID: 1"; lit "Event ID: 1"; lit "Map ID: 2";
              lit "@>Text: hi"])
  = Ok [ {| m_id := 1; m_name := [];
            m_events :=
              [ {| e_id := 1; e_name := [];
                   e_commands :=
                     [ {| c_type := lit "Text"; c_normalized_type := Text;
                          c_line := 4; c_content := lit "hi";
                          c_raw := lit "@>Text: hi" |} ] |} ] |};
         {| m_id := 2; m_name := []; m_events := [] |} ].
Proof. vm_compute. reflexivity. Qed.

(** The header branch itself: whatever the state, a map header leaves the
    reference to the current event as it was. *)
Lemma step_map_header_current_event (int : str -> option Z) (st st' : state)
    (n : nat) (raw : str) :
  startswith MAP_ID (chomp raw) = true -> step int st n raw = Ok st' ->
  current_event st' = current_event st /\
  current_map st' = Some (length (maps st)) /\
  exists map_id, maps st' = maps st ++ [ {| m_id := map_id; m_name := [];
                                           m_events := [] |} ].
Proof.
  intros Hl. unfold step. rewrite Hl.
  destruct (header_id int (chomp raw)) as [map_id|err]; simpl; [| discriminate].
  intros H. injection H as <-. simpl. eauto.
Qed.

Lemma alter_event_at (f : Event -> Event) (ce : nat * nat) (ms : list Map)
    (e : Event) :
  event_at ce ms = Some e ->
  alter_event f ce ms = alter_event (fun _ => f e) ce ms.
Proof.
  unfold event_at, alter_event. destruct ce as [mi ei]. cbn [fst snd].
  intros H. apply list_alter_ext; [| reflexivity].
  intros m Hm. rewrite Hm in H.
  cbn [mbind option_bind] in H. unfold alter_map_events. f_equal.
  apply list_alter_ext; [| reflexivity].
  intros e' He'. rewrite He' in H. congruence.
Qed.

(** C2 (as amended).  For a continuation line met while an event is
    current, the text after the first six characters of the trimmed line,
    trimmed again, is appended after a newline to the content of the last
    command of that event exactly when the raw type label of that command
    is ['Text'] (such a command has normalized category Text); nothing
    else in the state changes.  When the last command has another raw
    label the state is returned unchanged. *)
Theorem continuation_appends_to_raw_Text (int : str -> option Z) (st : state)
    (n : nat) (raw : str) (ce : nat * nat) (e : Event)
    (before : list Command) (c : Command) :
  is_continuation_line raw = true ->
  current_event st = Some ce ->
  event_at ce (maps st) = Some e ->
  e_commands e = before ++ [c] ->
  let extra := strip (drop 6 (strip (chomp raw))) in
  (c_type c = lit "Text" ->
     step int st n raw =
       Ok {| maps := alter_event
                       (fun _ => {| e_id := e_id e; e_name := e_name e;
                                    e_commands :=
                                      before ++ [add_content extra c] |})
                       ce (maps st);
             current_map := current_map st;
             current_event := current_event st |}
     /\ c_content (add_content extra c) = c_content c ++ [LF] ++ extra
     /\ c_type (add_content extra c) = c_type c
     /\ _normalize_type (c_type c) = Text) /\
  (c_type c <> lit "Text" -> step int st n raw = Ok st).
Proof.
  intros Hl Hce He Hc extra.
  rewrite (step_continuation int st n raw ce Hl Hce). fold extra. split.
  - intros Ht. split; [| split; [| split]].
    + rewrite (alter_event_at _ ce (maps st) e He).
      rewrite (append_continuation_text extra e before c Hc Ht). reflexivity.
    + reflexivity.
    + reflexivity.
    + rewrite Ht. reflexivity.
  - intros Ht. rewrite alter_event_fix.
    + rewrite state_eta. reflexivity.
    + intros e' He'. rewrite He in He'. injection He' as <-.
      apply (append_continuation_other extra e before c Hc Ht).
Qed.

(** C2 (counterexample).  After ["@>Show Text: a"] the preceding command has
    normalized category Text, yet the continuation line is dropped: the
    test of the source compares the raw label with ['Text']. *)
Lemma continuation_after_Show_Text_dropped :
  parse_lines int_ascii init_state 1
    [lit "Map ID: 1"; lit "Event ID: 1"; lit "@>Show Text: a"]
  = Ok show_text_state /\
  step int_ascii show_text_state 4 (lit ":    : b") = Ok show_text_state /\
  ~ continuation_rule_as_specified int_ascii show_text_state 4
      (lit ":    : b").
Proof.
  split; [vm_compute; reflexivity |].
  split; [vm_compute; reflexivity |].
  intros H.
  destruct (H (0%nat, 0%nat)
              {| e_id := 1; e_name := []; e_commands := [show_text_command] |}
              [] show_text_command eq_refl eq_refl eq_refl eq_refl)
    as [Happ _].
  specialize (Happ eq_refl). vm_compute in Happ. discriminate Happ.
Qed.

Lemma continuation_appends_to_raw_Text_witness :
  step int_ascii (text_state [text_command]) 4 (lit "  :    :  b ")
  = Ok (text_state [ {| c_type := lit "Text"; c_normalized_type := Text;
                        c_line := 3; c_content := lit "a" ++ [LF] ++ lit "b";
                        c_raw := lit "@>Text: a" |} ]).
Proof.
  destruct (continuation_appends_to_raw_Text int_ascii
              (text_state [text_command]) 4 (lit "  :    :  b ")
              (0%nat, 0%nat)
              {| e_id := 1; e_name := []; e_commands := [text_command] |}
              [] text_command eq_refl eq_refl eq_refl eq_refl) as [Happ _].
  destruct (Happ eq_refl) as [Hstep _]. rewrite Hstep. reflexivity.
Defined.

(** ** Normalized categories *)

Lemma normalize_in_first (table : list (Category * list str)) (cmd_type : str)
    (earlier later : list (Category * list str)) (c : Category)
    (patterns : list str) :
  table = earlier ++ (c, patterns) :: later ->
  any_pattern_in patterns cmd_type = true ->
  Forall (fun entry => any_pattern_in (snd entry) cmd_type = false) earlier ->
  normalize_in table cmd_type = c.
Proof.
  intros -> Hc Hearlier. induction Hearlier as [|[c' ps'] earlier Hx _ IH]; simpl.
  - rewrite Hc. reflexivity.
  - simpl in Hx. rewrite Hx. exact IH.
Qed.

Lemma normalize_in_none (table : list (Category * list str)) (cmd_type : str) :
  Forall (fun entry => any_pattern_in (snd entry) cmd_type = false) table ->
  normalize_in table cmd_type = Other.
Proof.
  induction 1 as [|[c ps] table Hx _ IH]; simpl; [reflexivity |].
  simpl in Hx. rewrite Hx. exact IH.
Qed.

Lemma any_pattern_in_spec (patterns : list str) (cmd_type : str) :
  any_pattern_in patterns cmd_type = true <->
  exists p, In p patterns /\ contains p cmd_type = true.
Proof. unfold any_pattern_in. apply existsb_exists. Qed.

Lemma alter_event_ok (f : Event -> Event) (ce : nat * nat) (ms : list Map) :
  (forall e, event_ok e -> event_ok (f e)) ->
  Forall map_ok ms -> Forall map_ok (alter_event f ce ms).
Proof.
  intros Hf Hms. unfold alter_event. apply Forall_alter; [exact Hms |].
  intros m _ Hm. unfold map_ok, alter_map_events in *. simpl.
  apply Forall_alter; [exact Hm |]. intros e _. apply Hf.
Qed.

Lemma append_continuation_ok (extra : str) (e : Event) :
  event_ok e -> event_ok (append_continuation extra e).
Proof.
  unfold event_ok, append_continuation. intros He.
  destruct (rev (e_commands e)) as [|c before] eqn:Hrev; [exact He |].
  destruct (bool_decide (c_type c = lit "Text")); [| exact He].
  simpl. apply (f_equal (@rev Command)) in Hrev.
  rewrite rev_involutive in Hrev. simpl in Hrev. rewrite Hrev in He.
  apply Forall_app in He as [Hb Hc]. apply Forall_app. split; [exact Hb |].
  constructor; [| constructor]. inversion Hc; subst. assumption.
Qed.

Lemma step_ok (int : str -> option Z) (st st' : state) (n : nat) (raw : str) :
  step int st n raw = Ok st' -> Forall map_ok (maps st) ->
  Forall map_ok (maps st').
Proof.
  unfold step. intros Hstep Hok. revert Hstep.
  generalize (startswith MAP_ID (chomp raw)) (startswith MAP_NAME (chomp raw))
    (startswith EVENT_ID (chomp raw)) (startswith EVENT_NAME (chomp raw))
    (is_command_line raw) (is_continuation_line raw)
    (header_id int (chomp raw)) (header_name (chomp raw)).
  intros b1 b2 b3 b4 b5 b6 hid hname Hstep.
  cbv [mret result_ret mbind result_bind] in Hstep.
  repeat case_match; simplify_eq/=; try assumption;
    first
      [ apply Forall_app; split; [assumption | repeat constructor]
      | apply Forall_alter; [assumption |]; intros m _ Hm;
        first [ exact Hm
              | unfold map_ok, add_event in *; simpl; apply Forall_app;
                split; [exact Hm | repeat constructor] ]
      | apply alter_event_ok; [| assumption];
        first [ apply append_continuation_ok
              | intros e He;
                first [ exact He
                      | unfold event_ok, add_command in *; simpl;
                        apply Forall_app;
                        split; [exact He | repeat constructor] ] ] ].
Qed.

Lemma parse_lines_ok (int : str -> option Z) (lines : list str) :
  forall st st' n,
    parse_lines int st n lines = Ok st' -> Forall map_ok (maps st) ->
    Forall map_ok (maps st').
Proof.
  induction lines as [|l lines IH]; intros st st' n H Hok; simpl in H.
  - injection H as <-. exact Hok.
  - destruct (step int st n l) as [st1|err] eqn:Hs; simpl in H; [| discriminate].
    apply (IH st1 st' (S n) H). apply (step_ok int st st1 n l Hs Hok).
Qed.

Lemma any_pattern_in_false (patterns : list str) (cmd_type : str) :
  (forall p, In p patterns -> contains p cmd_type = false) ->
  any_pattern_in patterns cmd_type = false.
Proof.
  intros H. destruct (any_pattern_in patterns cmd_type) eqn:E; [| reflexivity].
  apply any_pattern_in_spec in E as (p & Hp & Hc).
  rewrite (H p Hp) in Hc. discriminate.
Qed.

Lemma no_entry_matches (table : list (Category * list str)) (cmd_type : str) :
  (forall c ps p, In (c, ps) table -> In p ps -> contains p cmd_type = false) ->
  Forall (fun entry => any_pattern_in (snd entry) cmd_type = false) table.
Proof.
  intros H. apply List.Forall_forall. intros [c ps] Hin. simpl.
  apply any_pattern_in_false. intros p Hp. exact (H c ps p Hin Hp).
Qed.

(** C6. The normalized category is a function of the raw label alone: the
    table is scanned in its declaration order (Text, Battle, Logic,
    Navigation, Party, Audio, Visual, Message, Common, Wait), the first
    category one of whose keywords occurs in the label wins, and the result
    is Other when no keyword of any category occurs in it.  Every command
    of a parsed tree carries the category so computed from its own raw
    label. *)
Theorem normalized_type_first_match :
  List.map fst COMMAND_TYPES
  = [Text; Battle; Logic; Navigation; Party; Audio; Visual; Message; Common;
     Wait; Other] /\
  (forall cmd_type earlier c patterns later,
      COMMAND_TYPES = earlier ++ (c, patterns) :: later ->
      (exists p, In p patterns /\ contains p cmd_type = true) ->
      (forall c' ps' p', In (c', ps') earlier -> In p' ps' ->
                         contains p' cmd_type = false) ->
      _normalize_type cmd_type = c) /\
  (forall cmd_type,
      (forall c' ps' p', In (c', ps') COMMAND_TYPES -> In p' ps' ->
                         contains p' cmd_type = false) ->
      _normalize_type cmd_type = Other) /\
  (forall int text ms m e c,
      parse_file int text = Ok ms ->
      In m ms -> In e (m_events m) -> In c (e_commands e) ->
      c_normalized_type c = _normalize_type (c_type c)).
Proof.
  split; [reflexivity |]. split; [| split].
  - intros cmd_type earlier c patterns later Htable Hmatch Hearlier.
    unfold _normalize_type.
    apply (normalize_in_first _ _ earlier later c patterns Htable).
    + apply any_pattern_in_spec. exact Hmatch.
    + apply no_entry_matches. exact Hearlier.
  - intros cmd_type Hnone. unfold _normalize_type.
    apply normalize_in_none, no_entry_matches. exact Hnone.
  - intros int text ms m e c Hparse Hm He Hc. unfold parse_file in Hparse.
    destruct (parse_lines int init_state 1 (file_lines text)) as [st|err] eqn:Hp;
      simpl in Hparse; [| discriminate].
    injection Hparse as <-.
    assert (Hok : Forall map_ok (maps st)).
    { apply (parse_lines_ok int _ init_state st 1%nat Hp). constructor. }
    rewrite List.Forall_forall in Hok. specialize (Hok m Hm).
    unfold map_ok in Hok. rewrite List.Forall_forall in Hok.
    specialize (Hok e He). unfold event_ok in Hok.
    rewrite List.Forall_forall in Hok. exact (Hok c Hc).
Qed.

Lemma normalized_type_first_match_witness :
  _normalize_type (lit "Wait for Move") = Navigation /\
  _normalize_type (lit "Erase Event") = Other /\
  c_normalized_type
    {| c_type := lit "Text"; c_normalized_type := Text;
       c_line := 3; c_content := lit "hi"; c_raw := lit "@>Text: hi" |}
  = _normalize_type (lit "Text").
Proof.
  destruct normalized_type_first_match as (_ & Hfirst & Hnone & Htree).
  split; [| split].
  - apply (Hfirst (lit "Wait for Move")
             (firstn 3 COMMAND_TYPES) Navigation
             [lit "Transfer Player"; lit "Set Move Route"; lit "Wait for Move"]
             (skipn 4 COMMAND_TYPES)).
    + reflexivity.
    + exists (lit "Wait for Move"). split; [| reflexivity].
      right. right. left. reflexivity.
    + intros c' ps' p' Hin Hp. simpl in Hin.
      repeat (destruct Hin as [Hin | Hin];
              [injection Hin as <- <-; simpl in Hp;
               repeat (destruct Hp as [<- | Hp]; [reflexivity |]);
               destruct Hp |]).
      destruct Hin.
  - apply Hnone. intros c' ps' p' Hin Hp. simpl in Hin.
    repeat (destruct Hin as [Hin | Hin];
            [injection Hin as <- <-; simpl in Hp;
             repeat (destruct Hp as [<- | Hp]; [reflexivity |]);
             destruct Hp |]).
    destruct Hin.
  - apply (Htree int_ascii
             (unlines [lit "Map ID: 1"; lit "Event ID: 1"; lit "@>Text: hi"])
             [ {| m_id := 1; m_name := [];
                  m_events :=
                    [ {| e_id := 1; e_name := [];
                         e_commands :=
                           [ {| c_type := lit "Text"; c_normalized_type := Text;
                                c_line := 3; c_content := lit "hi";
                                c_raw := lit "@>Text: hi" |} ] |} ] |} ]
             {| m_id := 1; m_name := [];
                m_events :=
                  [ {| e_id := 1; e_name := [];
                       e_commands :=
                         [ {| c_type := lit "Text"; c_normalized_type := Text;
                              c_line := 3; c_content := lit "hi";
                              c_raw := lit "@>Text: hi" |} ] |} ] |}
             {| e_id := 1; e_name := [];
                e_commands :=
                  [ {| c_type := lit "Text"; c_normalized_type := Text;
                       c_line := 3; c_content := lit "hi";
                       c_raw := lit "@>Text: hi" |} ] |}).
    + vm_compute. reflexivity.
    + left. reflexivity.
    + left. reflexivity.
    + left. reflexivity.
Defined.

(** ** Per-map counts *)

Lemma get0_incr (counts : gmap Category nat) (k c : Category) :
  get0 (incr counts k) c
  = (get0 counts c + if bool_decide (k = c) then 1 else 0)%nat.
Proof.
  unfold get0, incr. destruct (decide (k = c)) as [->|Hne].
  - rewrite lookup_insert_eq, bool_decide_eq_true_2 by reflexivity. simpl. lia.
  - rewrite lookup_insert_ne by exact Hne.
    rewrite bool_decide_eq_false_2 by exact Hne. lia.
Qed.

Lemma get0_count_commands (cmds : list Command) :
  forall (counts : gmap Category nat) (c : Category),
    get0 (foldl (fun acc cmd => incr acc (c_normalized_type cmd)) counts cmds) c
    = (get0 counts c + count_category c cmds)%nat.
Proof.
  unfold count_category.
  induction cmds as [|x cmds IH]; intros counts c; simpl.
  - lia.
  - rewrite IH, get0_incr.
    destruct (bool_decide (c_normalized_type x = c)); simpl; lia.
Qed.

Lemma count_category_app (c : Category) (l1 l2 : list Command) :
  count_category c (l1 ++ l2)
  = (count_category c l1 + count_category c l2)%nat.
Proof. unfold count_category. rewrite List.filter_app, length_app. lia. Qed.

Lemma get0_count_events (events : list Event) :
  forall (counts : gmap Category nat) (c : Category),
    get0 (foldl count_event counts events) c
    = (get0 counts c + count_category c (e ← events; e_commands e))%nat.
Proof.
  induction events as [|e events IH]; intros counts c.
  - unfold count_category. simpl. lia.
  - cbn [foldl]. rewrite bind_cons, IH. unfold count_event.
    rewrite get0_count_commands, count_category_app. lia.
Qed.

Lemma get0_count_map (m : Map) (c : Category) :
  get0 (count_map m) c = count_category c (all_commands m).
Proof.
  unfold count_map, all_commands. rewrite get0_count_events.
  unfold get0. rewrite lookup_empty. reflexivity.
Qed.

(** Each command is counted under exactly one of the eleven categories. *)
Lemma count_category_total (cmds : list Command) :
  (count_category Text cmds + count_category Battle cmds
   + count_category Common cmds + count_category Logic cmds
   + count_category Navigation cmds + count_category Visual cmds
   + count_category Audio cmds + count_category Other cmds
   + count_category Message cmds + count_category Wait cmds
   + count_category Party cmds)%nat = length cmds.
Proof.
  unfold count_category. induction cmds as [|x cmds IH]; [reflexivity |].
  cbn [List.filter length].
  destruct (c_normalized_type x); cbn [bool_decide decide_rel]; simpl; lia.
Qed.

(** C5. For every map the six buckets are the per-category counts grouped
    as dialogue = Text, battle = Battle + Common, logic = Logic,
    navigation = Navigation, visual = Visual + Audio, other = Other +
    Message + Wait + Party; total_commands is their sum and is the number
    of commands of the map, each command counted in exactly one bucket.
    The dump with map 1 "Camp", one event, three Text commands and one
    Battle command gives dialogue 3, battle 1, total 4, density 0.75 and
    the classification Story-Heavy. *)
Theorem bucket_counts_sum_to_total :
  (forall m : Map,
      let r := density_row m in
      let count c := count_category c (all_commands m) in
      dialogue_count r = count Text /\
      battle_count r = (count Battle + count Common)%nat /\
      logic_count r = count Logic /\
      navigation_count r = count Navigation /\
      visual_audio_count r = (count Visual + count Audio)%nat /\
      other_count r
      = (count Other + count Message + count Wait + count Party)%nat /\
      total_commands r
      = (dialogue_count r + battle_count r + logic_count r
         + navigation_count r + visual_audio_count r + other_count r)%nat /\
      total_commands r = length (all_commands m)) /\
  (exists m,
      parse_file int_ascii camp_dump = Ok [m] /\
      m_id m = 1 /\ m_name m = lit "Camp" /\
      List.map (fun e => List.map c_normalized_type (e_commands e)) (m_events m)
      = [[Text; Text; Text; Battle]] /\
      let r := density_row m in
      dialogue_count r = 3%nat /\ battle_count r = 1%nat /\
      total_commands r = 4%nat /\
      (narrative_density r == 75 # 100)%Q /\
      classification r = Story_Heavy).
Proof.
  split.
  - intros m r count. unfold r, density_row. cbn [dialogue_count battle_count
      logic_count navigation_count visual_audio_count other_count
      total_commands].
    rewrite !get0_count_map. fold count.
    repeat (split; [reflexivity |]).
    pose proof (count_category_total (all_commands m)) as Htotal.
    fold count in Htotal. unfold count in *. lia.
  - eexists. split; [vm_compute; reflexivity |].
    vm_compute. repeat split; reflexivity.
Qed.

(** ** Density and classification *)

Lemma round_half_even_near (q : Q) :
  (inject_Z (round_half_even q) - q <= 1 # 2)%Q /\
  (q - inject_Z (round_half_even q) <= 1 # 2)%Q.
Proof.
  unfold round_half_even.
  pose proof (Qfloor_le q) as Hlo. pose proof (Qlt_floor q) as Hhi.
  rewrite inject_Z_plus in Hhi. change (inject_Z 1) with 1%Q in Hhi.
  destruct (q - inject_Z (Qfloor q) ?= 1 # 2)%Q eqn:Hcmp.
  - apply Qeq_alt in Hcmp.
    destruct (Z.even (Qfloor q));
      [| rewrite inject_Z_plus; change (inject_Z 1) with 1%Q]; lra.
  - apply Qlt_alt in Hcmp. lra.
  - apply Qgt_alt in Hcmp. rewrite inject_Z_plus.
    change (inject_Z 1) with 1%Q. lra.
Qed.

Lemma inject_Z_le_half (a n : Z) :
  (inject_Z a <= inject_Z n + (1 # 2))%Q -> a <= n.
Proof.
  intros H. destruct (Z_le_gt_dec a n) as [Hle|Hgt]; [exact Hle |].
  assert (H1 : (inject_Z (n + 1) <= inject_Z a)%Q) by (rewrite <- Zle_Qle; lia).
  rewrite inject_Z_plus in H1. change (inject_Z 1) with 1%Q in H1. lra.
Qed.

Lemma round4_bounds (q : Q) :
  (0 <= q)%Q -> (q <= 1)%Q -> (0 <= round4 q)%Q /\ (round4 q <= 1)%Q.
Proof.
  intros H0 H1. unfold round4.
  destruct (round_half_even_near (q * 10000)) as [Hup Hdown].
  assert (Hlo : 0 <= round_half_even (q * 10000)).
  { destruct (Z_le_gt_dec 0 (round_half_even (q * 10000))) as [Hle|Hgt];
      [exact Hle |].
    assert (Hneg : (inject_Z (round_half_even (q * 10000)) <= inject_Z (-1))%Q)
      by (rewrite <- Zle_Qle; lia).
    change (inject_Z (-1)) with (-1 # 1)%Q in Hneg. lra. }
  assert (Hhi : round_half_even (q * 10000) <= 10000).
  { apply inject_Z_le_half. change (inject_Z 10000) with (10000 # 1)%Q. lra. }
  rewrite Zle_Qle in Hlo, Hhi.
  change (inject_Z 0) with 0%Q in Hlo.
  change (inject_Z 10000) with (10000 # 1)%Q in Hhi.
  split.
  - apply Qle_shift_div_l; [reflexivity | lra].
  - apply Qle_shift_div_r; [reflexivity | lra].
Qed.

Lemma round4_near (q : Q) :
  (round4 q - q <= 1 # 20000)%Q /\ (q - round4 q <= 1 # 20000)%Q.
Proof.
  unfold round4.
  destruct (round_half_even_near (q * 10000)) as [Hup Hdown].
  set (r := inject_Z (round_half_even (q * 10000))) in *.
  assert (E : (r / 10000 == r * (1 # 10000))%Q) by (unfold Qdiv; reflexivity).
  rewrite E. lra.
Qed.

Lemma density_of_bounds (dialogue total : nat) :
  (dialogue <= total)%nat ->
  (0 <= density_of dialogue total)%Q /\ (density_of dialogue total <= 1)%Q.
Proof.
  intros Hle. unfold density_of.
  destruct (0 <? total)%nat eqn:Ht; [| split; discriminate || lra].
  apply Nat.ltb_lt in Ht.
  assert (Hpos : (0 < inject_Z (Z.of_nat total))%Q).
  { change 0%Q with (inject_Z 0). rewrite <- Zlt_Qlt. lia. }
  assert (Hd : (0 <= inject_Z (Z.of_nat dialogue))%Q).
  { change 0%Q with (inject_Z 0). rewrite <- Zle_Qle. lia. }
  assert (Hdt : (inject_Z (Z.of_nat dialogue) <= inject_Z (Z.of_nat total))%Q).
  { rewrite <- Zle_Qle. lia. }
  split.
  - apply Qle_shift_div_l; [exact Hpos | lra].
  - apply Qle_shift_div_r; [exact Hpos | lra].
Qed.

Lemma _classify_density_spec (q : Q) :
  ((7 # 10 < q)%Q -> _classify_density q = Story_Heavy) /\
  ((3 # 10 < q)%Q -> (q <= 7 # 10)%Q -> _classify_density q = Mixed) /\
  ((q <= 3 # 10)%Q -> _classify_density q = Combat_Traversal).
Proof.
  unfold _classify_density.
  destruct (Qcompare_spec q (7 # 10)) as [H7|H7|H7];
    destruct (Qcompare_spec q (3 # 10)) as [H3|H3|H3];
    (split; [| split]); intros; try reflexivity; exfalso; lra.
Qed.

Lemma _classify_density_proper (q q' : Q) :
  (q == q')%Q -> _classify_density q = _classify_density q'.
Proof.
  intros E. unfold _classify_density.
  assert (H7 : (q ?= 7 # 10)%Q = (q' ?= 7 # 10)%Q) by (rewrite E; reflexivity).
  assert (H3 : (q ?= 3 # 10)%Q = (q' ?= 3 # 10)%Q) by (rewrite E; reflexivity).
  rewrite H7, H3. reflexivity.
Qed.

(** On binary64 numbers the boundary quotients classify as the exact
    rationals do: 7/10 and 21/30 are not above the literal 0.7, 3/10 is not
    above the literal 0.3, and quotients just above a boundary are above
    the literal. *)
Example double_boundaries :
  _classify_density_double (density_double 7 10) = Mixed /\
  _classify_density_double (density_double 21 30) = Mixed /\
  _classify_density_double (density_double 3 10) = Combat_Traversal /\
  _classify_density_double (density_double 9 30) = Combat_Traversal /\
  _classify_density_double (density_double 3 4) = Story_Heavy /\
  _classify_density_double (density_double 1405 2007) = Story_Heavy /\
  _classify_density_double (density_double 3001 10000) = Mixed /\
  _classify_density_double (density_double 0 0) = Combat_Traversal.
Proof. vm_compute. repeat split. Qed.




(** ** Timestamps *)

Lemma split_on_no_sep (sep : char) (s : str) :
  ~ In sep s -> split_on sep s = [s].
Proof.
  induction s as [|c s IH]; intros Hs; simpl; [reflexivity |].
  destruct (c =? sep)%N eqn:E.
  - apply N.eqb_eq in E. exfalso. apply Hs. left. exact E.
  - rewrite IH; [reflexivity |]. intros Hin. apply Hs. right. exact Hin.
Qed.

Lemma split_on_app_sep (sep : char) (a b : str) :
  ~ In sep a -> split_on sep (a ++ sep :: b) = a :: split_on sep b.
Proof.
  induction a as [|c a IH]; intros Ha; simpl.
  - rewrite N.eqb_refl. reflexivity.
  - destruct (c =? sep)%N eqn:E.
    + apply N.eqb_eq in E. exfalso. apply Ha. left. exact E.
    + rewrite IH; [reflexivity |]. intros Hin. apply Ha. right. exact Hin.
Qed.




(** ** Motif contexts *)

Section DictFacts.
Context {K V : Type} `{EqDecision K}.

Lemma dict_get_in (d : list (K * V)) (k : K) (v : V) :
  List.NoDup (List.map fst d) -> In (k, v) d -> dict_get k d = Some v.
Proof.
  induction d as [|[k' v'] d IH]; intros Hnd Hin; simpl in *; [destruct Hin |].
  inversion Hnd as [|? ? Hnotin Hnd']; subst.
  destruct Hin as [Heq | Hin].
  - injection Heq as -> ->. rewrite decide_True by reflexivity. reflexivity.
  - destruct (decide (k' = k)) as [->|Hne].
    + exfalso. apply Hnotin. apply in_map_iff. exists (k, v). split;
        [reflexivity | exact Hin].
    + apply IH; assumption.
Qed.

Lemma dict_set_fresh (d : list (K * V)) (k : K) (v : V) :
  ~ In k (List.map fst d) -> dict_set k v d = d ++ [(k, v)].
Proof.
  unfold dict_set. induction d as [|[k' v'] d IH]; intros Hk; simpl;
    [reflexivity |].
  destruct (decide (k' = k)) as [->|Hne].
  - exfalso. apply Hk. left. reflexivity.
  - f_equal. apply IH. intros Hin. apply Hk. right. exact Hin.
Qed.

End DictFacts.

Lemma score_contexts_from (text : str) (cks : list (str * list str)) :
  forall acc : list (str * nat),
    List.NoDup (List.map fst acc ++ List.map fst cks) ->
    foldl (fun scores ck => dict_set (fst ck) (score_of (snd ck) text) scores)
          acc cks
    = acc ++ List.map (fun ck => (fst ck, score_of (snd ck) text)) cks.
Proof.
  induction cks as [|[cat kws] cks IH]; intros acc Hnd; simpl.
  - rewrite app_nil_r. reflexivity.
  - rewrite dict_set_fresh.
    + rewrite IH.
      * rewrite <- app_assoc. reflexivity.
      * rewrite map_app. simpl. rewrite <- app_assoc. exact Hnd.
    + intros Hin. simpl in Hnd. apply NoDup_ListNoDup in Hnd.
      apply NoDup_app in Hnd as (_ & Hdis & _).
      apply (Hdis cat); [apply list_elem_of_In; exact Hin |].
      apply list_elem_of_In. left. reflexivity.
Qed.

(** With distinct category names, [scores] lists the categories in their
    declaration order, each with its number of keywords found in the text. *)
Lemma score_contexts_map (cks : list (str * list str)) (text : str) :
  List.NoDup (List.map fst cks) ->
  score_contexts cks text
  = List.map (fun ck => (fst ck, score_of (snd ck) text)) cks.
Proof.
  intros Hnd. unfold score_contexts. rewrite score_contexts_from; [reflexivity |].
  exact Hnd.
Qed.

Lemma max_from_spec {A : Type} (f : A -> nat) (l : list A) :
  forall best : A,
  exists pre post,
    best :: l = pre ++ max_from f best l :: post /\
    List.Forall (fun y => (f y < f (max_from f best l))%nat) pre /\
    List.Forall (fun y => (f y <= f (max_from f best l))%nat) (best :: l).
Proof.
  induction l as [|a l IH]; intros best; simpl.
  - exists [], []. repeat split; repeat constructor.
  - destruct (f best <? f a)%nat eqn:E.
    + apply Nat.ltb_lt in E.
      destruct (IH a) as (pre & post & Hsplit & Hpre & Hall).
      exists (best :: pre), post. split; [simpl; f_equal; exact Hsplit |].
      inversion Hall as [|? ? Ha Hl]; subst.
      split; constructor; try assumption; lia.
    + apply Nat.ltb_ge in E.
      destruct (IH best) as (pre & post & Hsplit & Hpre & Hall).
      inversion Hall as [|? ? Hb Hl]; subst.
      destruct pre as [|b pre]; simpl in Hsplit.
      * injection Hsplit as Hbest Hpost. exists [], (a :: post).
        split; [simpl; rewrite <- Hbest, Hpost; reflexivity |].
        split; [constructor |].
        constructor; [exact Hb |]. constructor; [lia | exact Hl].
      * injection Hsplit as <- Hl'.
        inversion Hpre as [|? ? Hbx Hpre']; subst.
        exists (best :: a :: pre), post.
        split; [simpl; do 2 f_equal; exact Hl' |].
        split.
        -- constructor; [exact Hbx |]. constructor; [lia | exact Hpre'].
        -- constructor; [exact Hb |]. constructor; [lia | exact Hl].
Qed.

Lemma sum_list_zero (l : list nat) :
  sum_list l = 0%nat <-> List.Forall (fun n => n = 0%nat) l.
Proof.
  induction l as [|n l IH]; simpl.
  - split; [constructor | reflexivity].
  - split.
    + intros H. constructor; [lia |]. apply IH. lia.
    + intros H. inversion H; subst. apply IH in H3. lia.
Qed.

Lemma dominant_of_neutral (scores : list (str * nat)) :
  List.Forall (fun cs => snd cs = 0%nat) scores ->
  dominant_of scores = lit "neutral".
Proof.
  intros Hz. unfold dominant_of.
  assert (Hs : sum_list (List.map snd scores) = 0%nat).
  { apply sum_list_zero. apply List.Forall_map. exact Hz. }
  rewrite Hs. reflexivity.
Qed.

Lemma dominant_of_argmax (scores : list (str * nat)) :
  List.NoDup (List.map fst scores) ->
  List.Exists (fun cs => (0 < snd cs)%nat) scores ->
  exists pre s post,
    scores = pre ++ (dominant_of scores, s) :: post /\
    List.Forall (fun cs => (snd cs < s)%nat) pre /\
    List.Forall (fun cs => (snd cs <= s)%nat) scores.
Proof.
  intros Hnd Hex. unfold dominant_of.
  assert (Hget : forall cs, In cs scores -> score_get scores (fst cs) = snd cs).
  { intros [k v] Hin. unfold score_get. rewrite (dict_get_in scores k v Hnd Hin).
    reflexivity. }
  assert (Hs : (0 < sum_list (List.map snd scores))%nat).
  { destruct (sum_list (List.map snd scores)) eqn:E; [| lia].
    apply sum_list_zero in E. rewrite List.Forall_map in E.
    apply List.Exists_exists in Hex as (cs & Hin & Hpos).
    rewrite List.Forall_forall in E. specialize (E cs Hin). lia. }
  apply Nat.ltb_lt in Hs. rewrite Hs.
  destruct scores as [|[k v] rest].
  { inversion Hex. }
  cbn [List.map fst].
  set (f := score_get ((k, v) :: rest)) in *.
  destruct (max_from_spec f (List.map fst rest) k) as (pre & post & Hsplit & Hpre & Hall).
  set (x := max_from f k (List.map fst rest)) in *.
  change (k :: List.map fst rest) with (List.map fst ((k, v) :: rest)) in Hsplit, Hall.
  set (scores := (k, v) :: rest) in *.
  apply map_eq_app in Hsplit as (l1 & l2 & Hscores & Hl1 & Hl2).
  destruct l2 as [|[x' s] l2]; [discriminate |].
  simpl in Hl2. injection Hl2 as Hx Hpost. subst x'.
  exists l1, s, l2. split; [exact Hscores |].
  assert (Hfx : f x = s).
  { apply (Hget (x, s)). rewrite Hscores.
    apply in_or_app. right. left. reflexivity. }
  rewrite Hfx in Hpre, Hall. split.
  - subst pre. rewrite List.Forall_map in Hpre.
    apply List.Forall_forall. intros cs Hin.
    rewrite List.Forall_forall in Hpre. specialize (Hpre cs Hin).
    rewrite Hget in Hpre; [exact Hpre |].
    rewrite Hscores. apply in_or_app. left. exact Hin.
  - rewrite List.Forall_map in Hall.
    apply List.Forall_forall. intros cs Hin.
    rewrite List.Forall_forall in Hall. specialize (Hall cs Hin).
    rewrite Hget in Hall; assumption.
Qed.

(** C9. For the dialogues whose text contains the motif, and only for
    them, an instance is recorded; its scores list the configured
    categories in declaration order, each with the number of its keywords
    that occur in the text; the dominant context is 'neutral' when every
    score is 0, and otherwise the first category, in declaration order,
    whose score is the largest.  With {innocence: ['home'], military:
    ['war']} and the text 'I miss home' the scores are innocence 1,
    military 0 and the dominant context is 'innocence'. *)
Theorem dominant_context_argmax :
  (forall (motif : str) (cks : list (str * list str))
          (dialogues : list Dialogue),
      List.NoDup (List.map fst cks) ->
      (forall inst,
          In inst (extract_instances motif cks dialogues) <->
          exists d, In d dialogues /\ contains motif (d_text d) = true /\
                    inst = instance_of cks d) /\
      (forall d,
          let inst := instance_of cks d in
          i_scores inst
          = List.map
              (fun ck =>
                 (fst ck,
                  length (List.filter (fun kw => contains kw (d_text d))
                                      (snd ck))))
              cks /\
          (List.Forall (fun cs => snd cs = 0%nat) (i_scores inst) ->
           i_dominant_context inst = lit "neutral") /\
          (List.Exists (fun cs => (0 < snd cs)%nat) (i_scores inst) ->
           exists pre s post,
             i_scores inst = pre ++ (i_dominant_context inst, s) :: post /\
             List.Forall (fun cs => (snd cs < s)%nat) pre /\
             List.Forall (fun cs => (snd cs <= s)%nat) (i_scores inst)))) /\
  List.map (fun inst => (i_scores inst, i_dominant_context inst))
           (extract_instances (lit "miss") home_contexts [home_dialogue])
  = [([(lit "innocence", 1%nat); (lit "military", 0%nat)], lit "innocence")].
Proof.
  split; [| vm_compute; reflexivity].
  intros motif cks dialogues Hnd. split.
  - intros inst. unfold extract_instances. rewrite in_map_iff. split.
    + intros (d & <- & Hd). apply filter_In in Hd as [Hd Hm]. eauto.
    + intros (d & Hd & Hm & ->). exists d. split; [reflexivity |].
      apply filter_In. split; assumption.
  - intros d inst.
    assert (Hscores : i_scores inst
                      = List.map (fun ck => (fst ck, score_of (snd ck) (d_text d)))
                                 cks).
    { unfold inst, instance_of. cbn [i_scores].
      apply score_contexts_map. exact Hnd. }
    assert (Hkeys : List.NoDup (List.map fst (i_scores inst))).
    { rewrite Hscores, List.map_map. simpl. exact Hnd. }
    split; [exact Hscores |]. split.
    + intros Hz. apply (dominant_of_neutral _ Hz).
    + intros Hex. apply (dominant_of_argmax _ Hkeys Hex).
Qed.

Lemma dominant_context_argmax_witness :
  let inst := instance_of home_contexts home_dialogue in
  (exists pre s post,
      i_scores inst = pre ++ (i_dominant_context inst, s) :: post /\
      List.Forall (fun cs => (snd cs < s)%nat) pre /\
      List.Forall (fun cs => (snd cs <= s)%nat) (i_scores inst)) /\
  In inst (extract_instances (lit "miss") home_contexts [home_dialogue]).
Proof.
  intros inst. destruct dominant_context_argmax as [Hgen _].
  assert (Hnd : List.NoDup (List.map fst home_contexts)).
  { constructor.
    - simpl. intros [H | []]. discriminate H.
    - constructor; [intros [] | constructor]. }
  destruct (Hgen (lit "miss") home_contexts [home_dialogue] Hnd)
    as [Hin Hinst].
  split.
  - apply (Hinst home_dialogue). apply List.Exists_cons_hd. vm_compute. lia.
  - apply Hin. exists home_dialogue. split; [left; reflexivity |].
    split; reflexivity.
Defined.

(** ** Grouping by type *)

Section DictUpd.
Context {K V : Type} `{EqDecision K}.

Lemma dict_get_upd (k k' : K) (f : option V -> V) (d : list (K * V)) :
  dict_get k' (dict_upd k f d)
  = if decide (k = k') then Some (f (dict_get k d)) else dict_get k' d.
Proof.
  induction d as [|[k0 v0] d IH]; simpl.
  - destruct (decide (k = k')); reflexivity.
  - destruct (decide (k0 = k)) as [->|Hne]; simpl.
    + destruct (decide (k = k')); reflexivity.
    + rewrite IH. destruct (decide (k0 = k')) as [->|Hne'].
      * rewrite decide_False by congruence. reflexivity.
      * reflexivity.
Qed.

Lemma dict_upd_keys (k : K) (f : option V -> V) (d : list (K * V)) :
  (In k (List.map fst d) /\ List.map fst (dict_upd k f d) = List.map fst d) \/
  (~ In k (List.map fst d)
   /\ List.map fst (dict_upd k f d) = List.map fst d ++ [k]).
Proof.
  induction d as [|[k0 v0] d IH]; simpl.
  - right. split; [intros [] | reflexivity].
  - destruct (decide (k0 = k)) as [->|Hne]; simpl.
    + left. split; [left; reflexivity | reflexivity].
    + destruct IH as [[Hin Heq] | [Hnin Heq]].
      * left. split; [right; exact Hin | f_equal; exact Heq].
      * right. split; [intros [H' | H']; [congruence | exact (Hnin H')] |].
        f_equal. exact Heq.
Qed.

Lemma dict_upd_NoDup (k : K) (f : option V -> V) (d : list (K * V)) :
  List.NoDup (List.map fst d) -> List.NoDup (List.map fst (dict_upd k f d)).
Proof.
  intros Hnd. destruct (dict_upd_keys k f d) as [[_ ->] | [Hnin ->]];
    [exact Hnd |].
  apply NoDup_ListNoDup. apply NoDup_app. repeat split.
  - apply NoDup_ListNoDup. exact Hnd.
  - intros x Hx Hx'. apply list_elem_of_In in Hx.
    apply list_elem_of_In in Hx'. destruct Hx' as [<- | []]. exact (Hnin Hx).
  - apply NoDup_singleton.
Qed.

Lemma dict_upd_key_in (k k' : K) (f : option V -> V) (d : list (K * V)) :
  In k' (List.map fst (dict_upd k f d)) <-> k' = k \/ In k' (List.map fst d).
Proof.
  destruct (dict_upd_keys k f d) as [[Hin ->] | [Hnin ->]].
  - split; [intros H'; right; exact H' |]. intros [-> | H']; assumption.
  - rewrite in_app_iff. simpl. intuition congruence.
Qed.

Lemma dict_get_Some_in (k : K) (v : V) (d : list (K * V)) :
  dict_get k d = Some v -> In (k, v) d.
Proof.
  induction d as [|[k0 v0] d IH]; simpl; [discriminate |].
  destruct (decide (k0 = k)) as [->|Hne].
  - intros H'. injection H' as ->. left. reflexivity.
  - intros H'. right. apply IH. exact H'.
Qed.

End DictUpd.

Section Grouping.
Context {A : Type} (type_of : A -> str).

Lemma group_by_type_snoc (beats : list A) (b : A) :
  group_by_type type_of (beats ++ [b])
  = dict_append (type_of b) b (group_by_type type_of beats).
Proof. unfold group_by_type. rewrite foldl_app. reflexivity. Qed.

Lemma of_type_snoc (ty : str) (beats : list A) (b : A) :
  of_type type_of ty (beats ++ [b])
  = of_type type_of ty beats
    ++ if decide (type_of b = ty) then [b] else [].
Proof.
  unfold of_type. rewrite List.filter_app. simpl.
  destruct (decide (type_of b = ty)) as [E|E].
  - rewrite bool_decide_eq_true_2 by exact E. reflexivity.
  - rewrite bool_decide_eq_false_2 by exact E. reflexivity.
Qed.

(** [by_type.get(ty, [])] is the list of the beats of that type, in order. *)
Lemma group_by_type_get (beats : list A) (ty : str) :
  default [] (dict_get ty (group_by_type type_of beats))
  = of_type type_of ty beats.
Proof.
  induction beats as [|b beats IH] using rev_ind; [reflexivity |].
  rewrite group_by_type_snoc, of_type_snoc. unfold dict_append.
  rewrite dict_get_upd. destruct (decide (type_of b = ty)) as [<-|Hne].
  - simpl. rewrite IH. reflexivity.
  - rewrite IH, app_nil_r. reflexivity.
Qed.

Lemma group_by_type_NoDup (beats : list A) :
  List.NoDup (List.map fst (group_by_type type_of beats)).
Proof.
  induction beats as [|b beats IH] using rev_ind; [constructor |].
  rewrite group_by_type_snoc. apply dict_upd_NoDup. exact IH.
Qed.

Lemma group_by_type_keys (beats : list A) (b : A) :
  In b beats -> In (type_of b) (List.map fst (group_by_type type_of beats)).
Proof.
  induction beats as [|b' beats IH] using rev_ind; [intros [] |].
  intros Hin. rewrite group_by_type_snoc. apply dict_upd_key_in.
  apply in_app_or in Hin as [Hin | [<- | []]].
  - right. apply IH. exact Hin.
  - left. reflexivity.
Qed.

(** The dictionary holds, for each of its keys, the beats of that type. *)
Lemma group_by_type_entries (beats : list A) :
  group_by_type type_of beats
  = List.map (fun ty => (ty, of_type type_of ty beats))
             (List.map fst (group_by_type type_of beats)).
Proof.
  pose proof (group_by_type_NoDup beats) as Hnd.
  assert (Hall : List.Forall
                   (fun kv => snd kv = of_type type_of (fst kv) beats)
                   (group_by_type type_of beats)).
  { apply List.Forall_forall. intros [ty vs] Hin. simpl.
    rewrite <- group_by_type_get.
    rewrite (dict_get_in _ ty vs Hnd Hin). reflexivity. }
  induction Hall as [|[ty vs] d Hx _ IH]; [reflexivity |].
  simpl in *. subst vs. f_equal.
  apply IH. inversion Hnd; assumption.
Qed.

End Grouping.

(** ** Matching reference beats to subject beats *)

Lemma take_first_of_type_Some (ty : str) (game : list GameBeat)
    (gb : GameBeat) (rest : list GameBeat) :
  take_first_of_type ty game = Some (gb, rest) ->
  of_type gb_type ty game = gb :: of_type gb_type ty rest /\
  (forall ty', ty' <> ty -> of_type gb_type ty' rest = of_type gb_type ty' game).
Proof.
  revert gb rest. induction game as [|g game IH]; intros gb rest; simpl;
    [discriminate |].
  destruct (decide (gb_type g = ty)) as [E|E].
  - intros H. injection H as <- <-. split.
    + rewrite bool_decide_eq_true_2 by exact E. reflexivity.
    + intros ty' Hne. rewrite bool_decide_eq_false_2 by congruence. reflexivity.
  - destruct (take_first_of_type ty game) as [[found rest']|] eqn:Ht;
      [| discriminate].
    intros H. injection H as <- <-.
    destruct (IH found rest' eq_refl) as [H1 H2]. split.
    + rewrite bool_decide_eq_false_2 by exact E. simpl.
      rewrite bool_decide_eq_false_2 by exact E. exact H1.
    + intros ty' Hne. simpl. rewrite (H2 ty' Hne). reflexivity.
Qed.

Lemma take_first_of_type_None (ty : str) (game : list GameBeat) :
  take_first_of_type ty game = None -> of_type gb_type ty game = [].
Proof.
  induction game as [|g game IH]; simpl; [reflexivity |].
  destruct (decide (gb_type g = ty)) as [E|E]; [discriminate |].
  destruct (take_first_of_type ty game) as [[found rest']|]; [discriminate |].
  intros _. rewrite bool_decide_eq_false_2 by exact E. apply IH. reflexivity.
Qed.

(** What "the first unconsumed subject beat of the same type" is. *)
Lemma take_first_of_type_spec (ty : str) (game : list GameBeat)
    (gb : GameBeat) (rest : list GameBeat) :
  take_first_of_type ty game = Some (gb, rest) ->
  exists before after,
    game = before ++ gb :: after /\ rest = before ++ after /\
    gb_type gb = ty /\
    List.Forall (fun g => gb_type g <> ty) before.
Proof.
  revert gb rest. induction game as [|g game IH]; intros gb rest; simpl;
    [discriminate |].
  destruct (decide (gb_type g = ty)) as [E|E].
  - intros H. injection H as <- <-. exists [], game. repeat split; auto.
  - destruct (take_first_of_type ty game) as [[found rest']|] eqn:Ht;
      [| discriminate].
    intros H. injection H as <- <-.
    destruct (IH found rest' eq_refl) as (before & after & -> & -> & Hty & Hb).
    exists (g :: before), after. repeat split; auto.
Qed.

Section Matching.
Variable lower : str -> str.
Variable title : str -> str.

Abbreviation match_instances := (match_instances lower title).
Abbreviation align_in_order := (align_in_order lower title).
Abbreviation rows_by_type := (rows_by_type lower title).

Lemma rows_by_type_nil (keys : list str) (game : list GameBeat) :
  rows_by_type keys [] game = [].
Proof.
  unfold rows_by_type. induction keys as [|ty keys IH]; [reflexivity |].
  rewrite bind_cons, IH. reflexivity.
Qed.

Lemma of_type_cons_ne {A : Type} (type_of : A -> str) (ty : str) (b : A)
    (beats : list A) :
  type_of b <> ty -> of_type type_of ty (b :: beats) = of_type type_of ty beats.
Proof.
  intros Hne. unfold of_type. simpl.
  rewrite bool_decide_eq_false_2 by exact Hne. reflexivity.
Qed.

Lemma of_type_cons_eq {A : Type} (type_of : A -> str) (b : A)
    (beats : list A) :
  of_type type_of (type_of b) (b :: beats)
  = b :: of_type type_of (type_of b) beats.
Proof.
  unfold of_type. simpl. rewrite bool_decide_eq_true_2 by reflexivity.
  reflexivity.
Qed.

(** For types other than that of [fb], neither [fb] nor the subject beat it
    consumed is seen. *)
Lemma rows_by_type_other (keys : list str) (fb : FilmBeat)
    (film : list FilmBeat) (game game' : list GameBeat) :
  ~ In (fb_type fb) keys ->
  (forall ty, ty <> fb_type fb ->
              of_type gb_type ty game' = of_type gb_type ty game) ->
  rows_by_type keys (fb :: film) game = rows_by_type keys film game'.
Proof.
  intros Hnin Hgame. unfold rows_by_type.
  induction keys as [|ty keys IH]; [reflexivity |].
  rewrite !bind_cons. rewrite IH.
  - rewrite of_type_cons_ne, Hgame; [reflexivity | |];
      intros E; apply Hnin; left; congruence.
  - intros Hin. apply Hnin. right. exact Hin.
Qed.

(** The double loop of the source yields, up to order, the rows of the
    matching in the order of the reference beats. *)
Lemma rows_by_type_align (film : list FilmBeat) :
  forall (keys : list str) (game : list GameBeat),
    List.NoDup keys ->
    (forall fb, In fb film -> In (fb_type fb) keys) ->
    rows_by_type keys film game ≡ₚ align_in_order film game.
Proof.
  induction film as [|fb film IH]; intros keys game Hnd Hkeys.
  - rewrite rows_by_type_nil. reflexivity.
  - assert (Hin : In (fb_type fb) keys) by (apply Hkeys; left; reflexivity).
    apply in_split in Hin as (k1 & k2 & Hsplit).
    assert (Hk1 : ~ In (fb_type fb) k1 /\ ~ In (fb_type fb) k2).
    { subst keys. apply NoDup_remove_2 in Hnd.
      split; intros H; apply Hnd; apply in_or_app; [left | right]; exact H. }
    destruct Hk1 as [Hk1 Hk2].
    assert (Hkeys' : forall fb', In fb' film -> In (fb_type fb') keys).
    { intros fb' H. apply Hkeys. right. exact H. }
    simpl.
    destruct (take_first_of_type (fb_type fb) game) as [[gb rest]|] eqn:Ht.
    + destruct (take_first_of_type_Some _ _ _ _ Ht) as [Hhead Hother].
      rewrite <- (IH keys rest Hnd Hkeys'). subst keys.
      unfold rows_by_type at 1. rewrite bind_app, bind_cons.
      fold (rows_by_type k1 (fb :: film) game).
      fold (rows_by_type k2 (fb :: film) game).
      rewrite (rows_by_type_other k1 fb film game rest Hk1 Hother).
      rewrite (rows_by_type_other k2 fb film game rest Hk2 Hother).
      rewrite of_type_cons_eq, Hhead. simpl.
      unfold rows_by_type at 3. rewrite bind_app, bind_cons.
      fold (rows_by_type k1 film rest). fold (rows_by_type k2 film rest).
      symmetry. apply Permutation_middle.
    + pose proof (take_first_of_type_None _ _ Ht) as Hnone.
      rewrite <- (IH keys game Hnd Hkeys'). subst keys.
      unfold rows_by_type at 1. rewrite bind_app, bind_cons.
      fold (rows_by_type k1 (fb :: film) game).
      fold (rows_by_type k2 (fb :: film) game).
      rewrite (rows_by_type_other k1 fb film game game Hk1 (fun _ _ => eq_refl)).
      rewrite (rows_by_type_other k2 fb film game game Hk2 (fun _ _ => eq_refl)).
      rewrite of_type_cons_eq, Hnone. simpl.
      unfold rows_by_type at 3. rewrite bind_app, bind_cons.
      fold (rows_by_type k1 film game). fold (rows_by_type k2 film game).
      rewrite Hnone. symmetry. apply Permutation_middle.
Qed.

(** [alignment_data] is the double loop over the keys of [film_by_type]. *)
Lemma alignment_data_rows (film : list FilmBeat) (game : list GameBeat) :
  alignment_data lower title film game
  = rows_by_type (List.map fst (group_by_type fb_type film)) film game.
Proof.
  unfold alignment_data, rows_by_type.
  rewrite (group_by_type_entries fb_type film) at 1.
  change (List.map ?f ?l) with (f <$> l) at 1.
  rewrite list_fmap_bind. apply list_bind_ext; [| reflexivity].
  intros ty. simpl. rewrite group_by_type_get. reflexivity.
Qed.

Lemma alignment_data_align (film : list FilmBeat) (game : list GameBeat) :
  alignment_data lower title film game ≡ₚ align_in_order film game.
Proof.
  rewrite alignment_data_rows. apply rows_by_type_align.
  - apply group_by_type_NoDup.
  - intros fb Hin. apply group_by_type_keys. exact Hin.
Qed.

End Matching.

(** ** The alignment table and its score *)

Lemma insert_by_key_perm {R : Type} (x : Q * R) (l : list (Q * R)) :
  insert_by_key x l ≡ₚ x :: l.
Proof.
  induction l as [|y l IH]; simpl; [reflexivity |].
  destruct (Qle_bool (fst y) (fst x)); [| reflexivity].
  rewrite IH. apply perm_swap.
Qed.

Lemma sort_values_perm {R : Type} (keys : list Q) (df : list R) :
  length keys = length df -> sort_values keys df ≡ₚ df.
Proof.
  intros Hlen. unfold sort_values.
  assert (H : forall (l acc : list (Q * R)),
             foldl (fun acc kr => insert_by_key kr acc) acc l ≡ₚ acc ++ l).
  { induction l as [|x l IH]; intros acc; simpl.
    - rewrite app_nil_r. reflexivity.
    - rewrite IH, insert_by_key_perm. apply Permutation_middle. }
  rewrite (H (zip keys df) []). simpl.
  change (List.map snd (zip keys df)) with ((zip keys df).*2).
  rewrite snd_zip by lia. reflexivity.
Qed.

Lemma apply_all_ok {A B : Type} (f : A -> result B) (l : list A) :
  List.Forall (fun x => exists y, f x = Ok y) l ->
  exists ys, apply_all f l = Ok ys /\ length ys = length l.
Proof.
  induction 1 as [|x l [y Hy] _ (ys & Hys & Hlen)]; simpl.
  - exists []. split; reflexivity.
  - rewrite Hy, Hys. exists (y :: ys). split; [reflexivity | simpl; lia].
Qed.

Lemma column_nonempty {R A : Type} (field : R -> A) (df : list R) :
  df <> [] -> column field df = Ok (List.map field df).
Proof. destruct df; [congruence | reflexivity]. Qed.

Lemma length_filter_id_map {A : Type} (f : A -> bool) (l : list A) :
  length (List.filter id (List.map f l)) = length (List.filter f l).
Proof.
  induction l as [|x l IH]; simpl; [reflexivity |].
  change (id (f x)) with (f x). destruct (f x); simpl; rewrite IH; reflexivity.
Qed.

Lemma filter_perm_length {A : Type} (f : A -> bool) (l l' : list A) :
  l ≡ₚ l' -> length (List.filter f l) = length (List.filter f l').
Proof.
  induction 1 as [|x l l' _ IH|x y l|l1 l2 l3 _ IH1 _ IH2]; simpl.
  - reflexivity.
  - destruct (f x); simpl; rewrite IH; reflexivity.
  - destruct (f x), (f y); reflexivity.
  - rewrite IH1. exact IH2.
Qed.

Lemma filter_length_le {A : Type} (f : A -> bool) (l : list A) :
  (length (List.filter f l) <= length l)%nat.
Proof.
  induction l as [|x l IH]; simpl; [lia |]. destruct (f x); simpl; lia.
Qed.

Lemma align_in_order_timestamps (lower title : str -> str)
    (film : list FilmBeat) :
  forall game,
    List.map Film_Timestamp (align_in_order lower title film game)
    = List.map fb_timestamp film.
Proof.
  induction film as [|fb film IH]; intros game; simpl; [reflexivity |].
  destruct (take_first_of_type (fb_type fb) game) as [[gb rest]|]; simpl;
    rewrite IH; reflexivity.
Qed.

Lemma align_in_order_length (lower title : str -> str)
    (film : list FilmBeat) (game : list GameBeat) :
  length (align_in_order lower title film game) = length film.
Proof.
  rewrite <- (length_map Film_Timestamp), align_in_order_timestamps.
  apply length_map.
Qed.

Lemma _classify_match_spec (lower : str -> str) (fb : FilmBeat)
    (gb : GameBeat) :
  (_classify_match lower fb gb = Direct_Transposition <->
   exists w, w ∈ overlap_words /\
             In w (split_ws (lower (fb_description fb))) /\
             In w (split_ws (lower (gb_description gb)))) /\
  (_classify_match lower fb gb = Direct_Transposition \/
   _classify_match lower fb gb = Structural_Homology).
Proof.
  unfold _classify_match, words.
  set (fw := list_to_set (split_ws (lower (fb_description fb))) : gset str).
  set (gw := list_to_set (split_ws (lower (gb_description gb))) : gset str).
  destruct (decide (fw ∩ overlap_words ∩ (gw ∩ overlap_words) = ∅)) as [E|E].
  - split; [| right; reflexivity]. split; [discriminate |].
    intros (w & Hw & Hf & Hg). exfalso.
    assert (Hin : w ∈ fw ∩ overlap_words ∩ (gw ∩ overlap_words)).
    { unfold fw, gw. rewrite !elem_of_intersection, !elem_of_list_to_set.
      rewrite !list_elem_of_In. tauto. }
    rewrite E in Hin. apply not_elem_of_empty in Hin. exact Hin.
  - split; [| left; reflexivity]. split; [| reflexivity]. intros _.
    apply set_choose_L in E as [w Hw]. exists w.
    unfold fw, gw in Hw.
    rewrite !elem_of_intersection, !elem_of_list_to_set in Hw.
    rewrite !list_elem_of_In in Hw. tauto.
Qed.

Lemma compute_alignment_ok (int : str -> option Z)
    (lower title : str -> str) (film : list FilmBeat) (game : list GameBeat) :
  film <> [] ->
  List.Forall (fun fb => exists q,
                   _timestamp_to_minutes int (fb_timestamp fb) = Ok q) film ->
  exists table,
    compute_alignment int lower title film game = Ok table /\
    table ≡ₚ align_in_order lower title film game.
Proof.
  intros Hne Hts. unfold compute_alignment.
  pose proof (alignment_data_align lower title film game) as Hperm.
  set (df := alignment_data lower title film game) in *.
  assert (Hlen : length df = length film).
  { rewrite (Permutation_length Hperm). apply align_in_order_length. }
  assert (Hconv : List.Forall (fun ts => exists q,
                                   _timestamp_to_minutes int ts = Ok q)
                              (List.map Film_Timestamp df)).
  { apply List.Forall_map.
    rewrite Hperm.
    apply (List.Forall_map Film_Timestamp
             (fun ts => exists q, _timestamp_to_minutes int ts = Ok q)).
    rewrite align_in_order_timestamps.
    apply List.Forall_map. exact Hts. }
  destruct (apply_all_ok _ _ Hconv) as (keys & Hkeys & Hklen).
  rewrite length_map in Hklen.
  assert (Hdf : df <> []).
  { intros E. rewrite E in Hlen. destruct film; [congruence | discriminate Hlen]. }
  rewrite (column_nonempty Film_Timestamp df Hdf).
  cbn [mbind result_bind]. rewrite Hkeys. cbn [mbind result_bind mret result_ret].
  exists (sort_values keys df). split; [reflexivity |].
  rewrite sort_values_perm by exact Hklen. exact Hperm.
Qed.

Lemma score_of_table (int : str -> option Z) (lower title : str -> str)
    (film : list FilmBeat) (game : list GameBeat)
    (table : list AlignmentRow) :
  film <> [] ->
  table ≡ₚ align_in_order lower title film game ->
  exists score,
    calculate_alignment_score int lower title film game (Some table) = Ok score /\
    (score == inject_Z (Z.of_nat (matched_count
                                    (align_in_order lower title film game)))
              / inject_Z (Z.of_nat (length film)) * 100)%Q /\
    (0 <= score)%Q /\ (score <= 100)%Q.
Proof.
  intros Hne Hperm. unfold calculate_alignment_score.
  cbn [mbind result_bind].
  assert (Hlen : length table = length film).
  { rewrite (Permutation_length Hperm). apply align_in_order_length. }
  assert (Htable : table <> []).
  { intros ->. destruct film; [congruence | discriminate Hlen]. }
  rewrite (column_nonempty Matched table Htable).
  cbn [mbind result_bind mret result_ret].
  rewrite length_filter_id_map, Hlen.
  rewrite (filter_perm_length Matched _ _ Hperm).
  fold (matched_count (align_in_order lower title film game)).
  set (matched := matched_count (align_in_order lower title film game)).
  assert (Hm : (matched <= length film)%nat).
  { unfold matched, matched_count.
    pose proof (filter_length_le Matched (align_in_order lower title film game))
      as Hle.
    rewrite align_in_order_length in Hle. exact Hle. }
  assert (Hpos : (0 < length film)%nat) by (destruct film; simpl; [congruence | lia]).
  apply Nat.ltb_lt in Hpos as Hpos'. rewrite Hpos'.
  eexists. split; [reflexivity |]. split; [reflexivity |].
  assert (Ht : (0 < inject_Z (Z.of_nat (length film)))%Q).
  { change 0%Q with (inject_Z 0). rewrite <- Zlt_Qlt. lia. }
  assert (Hm0 : (0 <= inject_Z (Z.of_nat matched))%Q).
  { change 0%Q with (inject_Z 0). rewrite <- Zle_Qle. lia. }
  assert (Hmt : (inject_Z (Z.of_nat matched)
                 <= inject_Z (Z.of_nat (length film)))%Q).
  { rewrite <- Zle_Qle. lia. }
  assert (Hd0 : (0 <= inject_Z (Z.of_nat matched)
                      / inject_Z (Z.of_nat (length film)))%Q).
  { apply Qle_shift_div_l; [exact Ht | lra]. }
  assert (Hd1 : (inject_Z (Z.of_nat matched)
                 / inject_Z (Z.of_nat (length film)) <= 1)%Q).
  { apply Qle_shift_div_r; [exact Ht | lra]. }
  split; lra.
Qed.


(** Without any reference beat the table has no column to sort by: the
    guard of [calculate_alignment_score] on an empty table is not reached. *)
Lemma alignment_no_reference_beat (int : str -> option Z)
    (lower title : str -> str) (game : list GameBeat)
    (table : option (list AlignmentRow)) :
  compute_alignment int lower title [] game = Raise KeyError /\
  calculate_alignment_score int lower title [] game None = Raise KeyError /\
  calculate_alignment_score int lower title [] game (Some []) = Raise KeyError.
Proof. repeat split. Qed.



(** ** Canonical pairs *)

Lemma str_compare_eq (a b : str) : str_compare a b = Eq <-> a = b.
Proof.
  revert b. induction a as [|x a IH]; intros [|y b]; simpl;
    try (split; [discriminate | discriminate]); [tauto |].
  destruct (N.compare_spec x y) as [E|Hlt|Hgt].
  - subst y. rewrite IH. split; [intros -> | intros H; injection H]; auto.
  - split; [discriminate |]. intros H. injection H as -> _. lia.
  - split; [discriminate |]. intros H. injection H as -> _. lia.
Qed.

Lemma str_compare_antisym (a b : str) :
  str_compare b a = CompOpp (str_compare a b).
Proof.
  revert b. induction a as [|x a IH]; intros [|y b]; simpl; try reflexivity.
  rewrite (N.compare_antisym x y).
  destruct (x ?= y)%N; simpl; [apply IH | reflexivity | reflexivity].
Qed.

Lemma str_leb_total (a b : str) : str_leb a b = false -> str_leb b a = true.
Proof.
  unfold str_leb. rewrite (str_compare_antisym a b).
  destruct (str_compare a b); simpl; congruence.
Qed.

Lemma str_leb_antisym (a b : str) :
  str_leb a b = true -> str_leb b a = true -> a = b.
Proof.
  unfold str_leb. rewrite (str_compare_antisym a b).
  destruct (str_compare a b) eqn:E; simpl; try discriminate.
  intros _ _. apply str_compare_eq. exact E.
Qed.

Lemma sorted_pair_idem (p : str * str) :
  sorted_pair (sorted_pair p) = sorted_pair p.
Proof.
  unfold sorted_pair. destruct p as [a b]; simpl.
  destruct (str_leb a b) eqn:E; simpl.
  - rewrite E. reflexivity.
  - rewrite (str_leb_total a b E). reflexivity.
Qed.

(** The two orders of a pair have the same canonical form. *)
Lemma sorted_pair_swap (a b : str) : sorted_pair (a, b) = sorted_pair (b, a).
Proof.
  unfold sorted_pair; simpl.
  destruct (str_leb a b) eqn:E1, (str_leb b a) eqn:E2; try reflexivity.
  - rewrite (str_leb_antisym a b E1 E2). reflexivity.
  - apply str_leb_total in E1. congruence.
Qed.

Lemma combinations2_in {A : Type} (l : list A) (a b : A) :
  In (a, b) (combinations2 l) -> In a l /\ In b l.
Proof.
  induction l as [|x l IH]; simpl; [intros [] |].
  intros H. apply in_app_or in H as [H | H].
  - apply in_map_iff in H as (y & E & Hy). injection E as <- <-. tauto.
  - apply IH in H. tauto.
Qed.

Lemma bump_ok (keywords : list str) (co : gmap (str * str) nat)
    (a b : str) :
  In a keywords -> In b keywords -> co_ok keywords co ->
  co_ok keywords (bump co (sorted_pair (a, b))).
Proof.
  intros Ha Hb Hco p n. unfold bump.
  destruct (decide (sorted_pair (a, b) = p)) as [<-|Hne].
  - rewrite lookup_insert_eq. intros H. injection H as <-.
    split; [apply sorted_pair_idem |]. split; [lia |].
    unfold sorted_pair; simpl. destruct (str_leb a b); simpl; tauto.
  - rewrite lookup_insert_ne by exact Hne. apply Hco.
Qed.

Lemma process_text_ok (keywords : list str) (co : gmap (str * str) nat)
    (text : str) :
  co_ok keywords co -> co_ok keywords (process_text keywords co text).
Proof.
  unfold process_text.
  set (present := List.filter (fun kw => contains kw text) keywords).
  assert (Hpairs : List.Forall (fun p => In (fst p) keywords
                                         /\ In (snd p) keywords)
                               (combinations2 present)).
  { apply List.Forall_forall. intros [a b] Hin.
    apply combinations2_in in Hin as [Ha Hb]. unfold present in Ha, Hb.
    apply filter_In in Ha as [Ha _]. apply filter_In in Hb as [Hb _].
    simpl. tauto. }
  revert co. induction Hpairs as [|[a b] ps [Ha Hb] _ IH]; intros co Hco;
    simpl; [exact Hco |].
  apply IH. apply bump_ok; assumption.
Qed.

Lemma process_dialogues_ok (entities themes : list str)
    (dialogues : list Dialogue) :
  co_ok (entities ++ themes) (process_dialogues entities themes dialogues).
Proof.
  unfold process_dialogues.
  assert (H : forall co, co_ok (entities ++ themes) co ->
                         co_ok (entities ++ themes)
                               (foldl (fun co d =>
                                         process_text (entities ++ themes) co
                                                      (d_text d))
                                      co dialogues)).
  { induction dialogues as [|d ds IH]; intros co Hco; simpl; [exact Hco |].
    apply IH. apply process_text_ok. exact Hco. }
  apply H. intros p n Hp. rewrite lookup_empty in Hp. discriminate.
Qed.

(** ** The co-occurrence graph *)

Lemma neighbours_touch_node (n x : str) (g : Graph) :
  neighbours (touch_node n g) x = neighbours g x.
Proof.
  unfold neighbours, touch_node; simpl.
  destruct (decide (n = x)) as [<-|Hne].
  - rewrite lookup_insert_eq. reflexivity.
  - rewrite lookup_insert_ne by exact Hne. reflexivity.
Qed.

Lemma neighbours_add_node (n x : str) (ty : NodeType) (g : Graph) :
  neighbours (add_node n ty g) x = neighbours g x.
Proof.
  unfold neighbours, add_node; simpl.
  destruct (decide (n = x)) as [<-|Hne].
  - rewrite lookup_insert_eq. reflexivity.
  - rewrite lookup_insert_ne by exact Hne. reflexivity.
Qed.

Lemma neighbours_add_edge (u v x y : str) (w : nat) (g : Graph) :
  neighbours (add_edge u v w g) x !! y
  = if decide ((x = u /\ y = v) \/ (x = v /\ y = u)) then Some w
    else neighbours g x !! y.
Proof.
  unfold add_edge.
  set (g1 := touch_node v (touch_node u g)).
  assert (Hg1 : forall z, neighbours g1 z = neighbours g z).
  { intros z. unfold g1. rewrite !neighbours_touch_node. reflexivity. }
  set (g2 := {| node := node g1;
                adj := <[u:=<[v:=w]> (neighbours g1 u)]> (adj g1) |}).
  assert (Hg2 : forall z, neighbours g2 z
                          = if decide (u = z) then <[v:=w]> (neighbours g z)
                            else neighbours g z).
  { intros z. unfold neighbours at 1. unfold g2. cbn [adj].
    destruct (decide (u = z)) as [<-|Hne].
    - rewrite lookup_insert_eq. simpl. rewrite Hg1. reflexivity.
    - rewrite lookup_insert_ne by exact Hne. apply Hg1. }
  unfold neighbours at 1. cbn [adj].
  destruct (decide (v = x)) as [<-|Hvx].
  - rewrite lookup_insert_eq. cbn [from_option id]. rewrite Hg2.
    destruct (decide (y = u)) as [->|Hyu].
    + rewrite lookup_insert_eq. rewrite decide_True by tauto. reflexivity.
    + rewrite lookup_insert_ne by congruence.
      destruct (decide (u = v)) as [->|Huv].
      * rewrite decide_False by tauto.
        rewrite lookup_insert_ne by congruence. reflexivity.
      * rewrite decide_False by (intros [[? ?]|[? ?]]; congruence).
        reflexivity.
  - rewrite lookup_insert_ne by exact Hvx.
    change (default ∅ (adj g2 !! x)) with (neighbours g2 x). rewrite Hg2.
    destruct (decide (u = x)) as [<-|Hux].
    + destruct (decide (y = v)) as [->|Hyv].
      * rewrite lookup_insert_eq. rewrite decide_True by tauto. reflexivity.
      * rewrite lookup_insert_ne by congruence.
        rewrite decide_False by (intros [[? ?]|[? ?]]; congruence).
        reflexivity.
    + rewrite decide_False by (intros [[? ?]|[? ?]]; congruence).
      reflexivity.
Qed.

Lemma node_touch_present (n : str) (g : Graph) :
  is_Some (node g !! n) -> node (touch_node n g) = node g.
Proof.
  intros [a Ha]. unfold touch_node; simpl. rewrite Ha. simpl.
  apply insert_id. exact Ha.
Qed.

Lemma node_add_edge_present (u v : str) (w : nat) (g : Graph) :
  is_Some (node g !! u) -> is_Some (node g !! v) ->
  node (add_edge u v w g) = node g.
Proof.
  intros Hu Hv. unfold add_edge. cbn [node].
  rewrite node_touch_present; rewrite node_touch_present; auto.
Qed.

Lemma In_str_dec (x : str) (l : list str) : {In x l} + {~ In x l}.
Proof. apply in_dec. intros a b. exact (decide (a = b)). Qed.

Lemma add_nodes_spec (ty : NodeType) (l : list str) :
  forall (g : Graph),
    let r := foldl (fun g e => add_node e ty g) g l in
    (forall x, neighbours r x = neighbours g x) /\
    (forall n, In n l -> node r !! n = Some (Some ty)) /\
    (forall n, ~ In n l -> node r !! n = node g !! n).
Proof.
  induction l as [|e l IH]; intros g; simpl.
  - repeat split; tauto.
  - destruct (IH (add_node e ty g)) as (Hn & Hin & Hout). repeat split.
    + intros x. rewrite Hn. apply neighbours_add_node.
    + intros n [<- | Hl].
      * destruct (In_str_dec e l) as [Hl | Hl]; [apply Hin; exact Hl |].
        rewrite (Hout e Hl). unfold add_node; simpl. apply lookup_insert_eq.
      * apply Hin. exact Hl.
    + intros n Hn'. rewrite Hout by tauto. unfold add_node; simpl.
      apply lookup_insert_ne. tauto.
Qed.

Lemma keyword_graph_spec (entities themes : list str) :
  let g := keyword_graph entities themes in
  (forall x, neighbours g x = ∅) /\
  (forall n, In n (entities ++ themes) -> is_Some (node g !! n)) /\
  (forall n a, node g !! n = Some a ->
               In n (entities ++ themes) /\ (a = Some entity \/ a = Some theme)).
Proof.
  unfold keyword_graph.
  destruct (add_nodes_spec entity entities empty_graph) as (Hn0 & Hin0 & Hout0).
  destruct (add_nodes_spec theme themes
              (foldl (fun g e => add_node e entity g) empty_graph entities))
    as (Hn1 & Hin1 & Hout1).
  cbv zeta in *. repeat split.
  - intros x. rewrite Hn1, Hn0. unfold neighbours, empty_graph; simpl.
    rewrite lookup_empty. reflexivity.
  - intros n Hn. destruct (In_str_dec n themes) as [Ht | Ht].
    + rewrite (Hin1 n Ht). eauto.
    + rewrite (Hout1 n Ht). apply in_app_or in Hn as [He | Ht']; [| tauto].
      rewrite (Hin0 n He). eauto.
  - destruct (In_str_dec n themes) as [Ht | Ht]; [apply in_or_app; tauto |].
    rewrite (Hout1 n Ht) in H.
    destruct (In_str_dec n entities) as [He | He]; [apply in_or_app; tauto |].
    rewrite (Hout0 n He) in H. unfold empty_graph in H; simpl in H.
    rewrite lookup_empty in H. discriminate.
  - destruct (In_str_dec n themes) as [Ht | Ht].
    + rewrite (Hin1 n Ht) in H. injection H as <-. tauto.
    + rewrite (Hout1 n Ht) in H.
      destruct (In_str_dec n entities) as [He | He].
      * rewrite (Hin0 n He) in H. injection H as <-. tauto.
      * rewrite (Hout0 n He) in H. unfold empty_graph in H; simpl in H.
        rewrite lookup_empty in H. discriminate.
Qed.

Lemma sorted_pair_cases (x y : str) (p : str * str) :
  sorted_pair p = p ->
  ((x = fst p /\ y = snd p) \/ (x = snd p /\ y = fst p)) <->
  sorted_pair (x, y) = p.
Proof.
  intros Hp. destruct p as [a b]; simpl. split.
  - intros [[-> ->] | [-> ->]]; [exact Hp |].
    rewrite sorted_pair_swap. exact Hp.
  - unfold sorted_pair; simpl. destruct (str_leb x y); simpl;
      intros E; injection E as <- <-; tauto.
Qed.

Lemma co_ok_insert (keywords : list str) (co : gmap (str * str) nat)
    (p : str * str) (n : nat) :
  co !! p = None -> co_ok keywords (<[p:=n]> co) -> co_ok keywords co.
Proof.
  intros Hnone Hok q m Hq. apply Hok.
  rewrite lookup_insert_ne; [exact Hq |]. intros ->. congruence.
Qed.

(** After the loop over the items of [co_occurrence]: the nodes are those of
    the keyword graph, and the edges are the recorded pairs at or above the
    threshold, with their counts as weights. *)
Lemma add_edges_spec (keywords : list str) (g1 : Graph) (threshold : Z)
    (co : gmap (str * str) nat) :
  (forall n, In n keywords -> is_Some (node g1 !! n)) ->
  (forall x, neighbours g1 x = ∅) ->
  co_ok keywords co ->
  let g2 := map_fold
              (fun pair weight g =>
                 if (threshold <=? Z.of_nat weight)%Z
                 then add_edge (fst pair) (snd pair) weight g
                 else g)
              g1 co in
  node g2 = node g1 /\
  (forall x y, neighbours g2 x !! y = edge_of co threshold x y).
Proof.
  intros Hkw Hempty. cbv zeta.
  apply (map_fold_weak_ind
           (fun g m => co_ok keywords m ->
                       node g = node g1 /\
                       forall x y, neighbours g x !! y
                                   = edge_of m threshold x y)).
  - intros _. split; [reflexivity |]. intros x y.
    rewrite Hempty. unfold edge_of. rewrite !lookup_empty. reflexivity.
  - intros p w m g Hnone IH Hok.
    destruct (IH (co_ok_insert keywords m p w Hnone Hok)) as [Hnode Hadj].
    destruct (Hok p w (lookup_insert_eq m p w)) as (Hcanon & _ & Hfst & Hsnd).
    assert (Hedge : forall x y,
               edge_of (<[p:=w]> m) threshold x y
               = if decide (sorted_pair (x, y) = p)
                 then (if (threshold <=? Z.of_nat w)%Z then Some w else None)
                 else edge_of m threshold x y).
    { intros x y. unfold edge_of.
      destruct (decide (sorted_pair (x, y) = p)) as [->|Hne].
      - rewrite lookup_insert_eq. reflexivity.
      - rewrite lookup_insert_ne by congruence. reflexivity. }
    destruct (threshold <=? Z.of_nat w)%Z eqn:Ht.
    + split.
      * rewrite node_add_edge_present; [exact Hnode | |];
          rewrite Hnode; apply Hkw; assumption.
      * intros x y. rewrite neighbours_add_edge, Hedge.
        destruct (decide (sorted_pair (x, y) = p)) as [Hsp|Hsp].
        -- rewrite decide_True; [reflexivity |].
           apply (sorted_pair_cases x y p Hcanon). exact Hsp.
        -- rewrite decide_False; [apply Hadj |].
           intros H. apply Hsp. apply (sorted_pair_cases x y p Hcanon).
           exact H.
    + split; [exact Hnode |]. intros x y. rewrite Hedge, Hadj.
      destruct (decide (sorted_pair (x, y) = p)) as [Hsp|Hsp]; [| reflexivity].
      unfold edge_of. rewrite Hsp, Hnone. reflexivity.
Qed.

Lemma neighbours_remove_isolated (g : Graph) (x : str) :
  neighbours (remove_isolated g) x = neighbours g x.
Proof.
  unfold neighbours at 1. unfold remove_isolated. cbn [adj].
  destruct (is_isolated g x) eqn:Hiso.
  - rewrite map_lookup_filter_None_2.
    + simpl. unfold is_isolated in Hiso. apply bool_decide_eq_true in Hiso.
      rewrite Hiso. reflexivity.
    + right. intros a _. simpl. congruence.
  - unfold neighbours. destruct (adj g !! x) as [a|] eqn:Ha.
    + rewrite (map_lookup_filter_Some_2 _ _ x a Ha); [reflexivity |].
      simpl. exact Hiso.
    + rewrite map_lookup_filter_None_2; [reflexivity |]. left. exact Ha.
Qed.

Lemma node_remove_isolated (g : Graph) (n : str) (a : option NodeType) :
  node (remove_isolated g) !! n = Some a ->
  node g !! n = Some a /\ exists v w, neighbours g n !! v = Some w.
Proof.
  unfold remove_isolated. cbn [node]. intros H.
  apply map_lookup_filter_Some in H as [Hn Hiso]. simpl in Hiso.
  split; [exact Hn |].
  unfold is_isolated in Hiso. apply bool_decide_eq_false in Hiso.
  apply map_choose in Hiso as (v & w & Hv). eauto.
Qed.

(** C7 (counterexample).  With threshold 0 and two keywords that never
    occur together, the canonical pair has count 0, which is at least the
    threshold, and yet the graph has no edge between them: only recorded
    pairs are turned into edges. *)
Lemma network_threshold_zero_no_edge :
  let co := process_dialogues [lit "wolf"] [lit "war"] [] in
  let g := build_network [lit "wolf"] [lit "war"] co 0 in
  0 <= Z.of_nat (pair_count co (lit "wolf") (lit "war")) /\
  ~ has_edge g (lit "wolf") (lit "war").
Proof.
  split; [vm_compute; discriminate |].
  unfold has_edge. vm_compute. intros [w Hw]. discriminate Hw.
Qed.

(** C7 (as amended).  The graph built from the counts of
    [process_dialogues] has an edge between two keywords exactly when
    their canonical pair was recorded (count at least 1) with a count at
    or above the threshold, so for every threshold of 1 or more exactly
    when the count is at or above the threshold; the weight of the edge is
    that count; every node left after the isolated nodes are removed has
    such an edge, is one of the configured entity or theme keywords and
    carries the node type 'entity' or 'theme'. *)
Theorem network_edges_at_threshold (entities themes : list str)
    (dialogues : list Dialogue) (threshold : Z) :
  let co := process_dialogues entities themes dialogues in
  let g := build_network entities themes co threshold in
  (forall u v,
      has_edge g u v <->
      (1 <= pair_count co u v)%nat /\ threshold <= Z.of_nat (pair_count co u v)) /\
  (1 <= threshold ->
   forall u v, has_edge g u v <-> threshold <= Z.of_nat (pair_count co u v)) /\
  (forall u v, pair_count co u v = pair_count co v u) /\
  (forall u v, has_edge g u v -> edge_weight g u v = Some (pair_count co u v)) /\
  (forall n, is_Some (node g !! n) -> exists v, has_edge g n v) /\
  (forall n, is_Some (node g !! n) ->
             In n (entities ++ themes) /\
             (node g !! n = Some (Some entity)
              \/ node g !! n = Some (Some theme))).
Proof.
  intros co g.
  pose proof (process_dialogues_ok entities themes dialogues) as Hok.
  fold co in Hok.
  destruct (keyword_graph_spec entities themes) as (Hempty & Hkw & Hty).
  destruct (add_edges_spec (entities ++ themes)
              (keyword_graph entities themes) threshold co Hkw Hempty Hok)
    as [Hnode Hadj].
  assert (Hnb : forall x y, neighbours g x !! y = edge_of co threshold x y).
  { intros x y. unfold g, build_network. rewrite neighbours_remove_isolated.
    apply Hadj. }
  assert (Hedge : forall u v,
             has_edge g u v <->
             (1 <= pair_count co u v)%nat
             /\ threshold <= Z.of_nat (pair_count co u v)).
  { intros u v. unfold has_edge. rewrite Hnb. unfold edge_of, pair_count.
    destruct (co !! sorted_pair (u, v)) as [w|] eqn:Hw; simpl.
    - destruct (Hok _ _ Hw) as (_ & Hw1 & _).
      destruct (threshold <=? Z.of_nat w) eqn:Ht.
      + apply Z.leb_le in Ht. split; [intros _; split; assumption | eauto].
      + apply Z.leb_gt in Ht. split; [intros [? ?]; discriminate | lia].
    - split; [intros [? ?]; discriminate | lia]. }
  split; [exact Hedge |]. split; [| split; [| split; [| split]]].
  - intros Ht u v. rewrite Hedge. lia.
  - intros u v. unfold pair_count. rewrite sorted_pair_swap. reflexivity.
  - intros u v. unfold has_edge, edge_weight. rewrite Hnb.
    unfold edge_of, pair_count.
    destruct (co !! sorted_pair (u, v)) as [w|]; simpl.
    + destruct (threshold <=? Z.of_nat w); [reflexivity | intros [? ?]; discriminate].
    + intros [? ?]; discriminate.
  - intros n [a Ha]. unfold g, build_network in Ha.
    apply node_remove_isolated in Ha as (_ & v & w & Hv).
    exists v. unfold has_edge, g, build_network.
    rewrite neighbours_remove_isolated, Hv. eauto.
  - intros n [a Ha]. rewrite Ha. unfold g, build_network in Ha.
    apply node_remove_isolated in Ha as (Ha & _).
    rewrite Hnode in Ha. destruct (Hty n a Ha) as [Hin [-> | ->]]; tauto.
Qed.

Lemma network_edges_at_threshold_witness :
  let entities := [lit "wolf"; lit "red"] in
  let themes := [lit "war"] in
  let dialogues := [text_dialogue (lit "red wolf at war");
                    text_dialogue (lit "the wolf and red")] in
  let g := build_network entities themes
             (process_dialogues entities themes dialogues) 2 in
  has_edge g (lit "red") (lit "wolf") /\
  edge_weight g (lit "wolf") (lit "red") = Some 2%nat /\
  ~ has_edge g (lit "wolf") (lit "war") /\
  (exists v, has_edge g (lit "wolf") v) /\
  node g !! lit "wolf" = Some (Some entity).
Proof.
  intros entities themes dialogues g.
  destruct (network_edges_at_threshold entities themes dialogues 2)
    as (_ & Hiff & _ & Hweight & Hnode & Htype).
  fold g in Hiff, Hweight, Hnode, Htype.
  assert (H1 : (1 <= 2)%Z) by lia.
  split; [| split; [| split; [| split]]].
  - apply (Hiff H1). vm_compute. discriminate.
  - rewrite Hweight; [vm_compute; reflexivity |].
    apply (Hiff H1). vm_compute. discriminate.
  - intros H. apply (Hiff H1) in H. vm_compute in H. apply H. reflexivity.
  - apply Hnode. vm_compute. eauto.
  - destruct (Htype (lit "wolf")) as [_ [H | H]].
    + vm_compute. eauto.
    + exact H.
    + exfalso. vm_compute in H. discriminate H.
Defined.
